(** * A shallow embedding of the Flask/YOLO CCTV server ([src/main.py])

    The server keeps one process-wide [CameraManager] object.  Its methods
    talk to three opaque collaborators: the OpenCV capture layer
    ([cv2.VideoCapture], [read], [release], [imencode]), the YOLO model and
    the file system holding [detection_log.json].  Here

    - the Python object is a record of its fields ([CameraManager]);
    - the collaborators are a [World] (which capture objects exist and are
      open, what the log file holds, the trace of every external call made
      so far) together with an oracle [Env] that fixes the outcome of the
      n-th external call, so that every behaviour the driver, the model or
      the disk may show is covered by quantifying over [Env];
    - Python exceptions are the [Raise] results of a small state-and-error
      monad, and [try: ... except: ...] is the combinator [try_except];
    - a capture object the program drops while the device is still open
      (a local of the registry scan that is rebound or goes out of scope)
      is released by its destructor, as CPython's reference counting has
      it for [cv2.VideoCapture] ([finalize]).

    Console output ([print]) and the capture property setters
    ([camera.set(...)], whose results the code ignores) are not modelled.
    The exceptions are the synchronous ones the collaborators raise
    (subclasses of [Exception]); asynchronous process signals are outside
    the model, which is why [except Exception] and a bare [except] are the
    same combinator. *)

From Stdlib Require Import ZArith Lia Sorted.
From Stdlib Require Qcanon.
From stdpp Require Import base list strings.

(** Python floats are idealised as exact rationals; the two float
    operations the program uses ([round], the percent format) stay opaque
    functions of the environment. *)
Abbreviation float := Qcanon.Qc.

Local Open Scope Z_scope.

(** ** JSON values, as [json.load] and [request.get_json] produce them *)

#[warnings="-register-all"] Inductive Json :=
| JNull
| JBool (b : bool)
| JInt (z : Z)
| JFloat (q : float)
| JStr (s : string)
| JList (l : list Json)
| JDict (kvs : list (string * Json)).

(** ** Exceptions and results *)

Inductive Exn :=
| CvError          (* cv2.error raised by the capture layer or the codec *)
| ModelError       (* anything the YOLO model raises *)
| KeyError
| AttributeError
| TypeError
| ValueError
| OSError
| JSONDecodeError
| BadRequest.      (* werkzeug.exceptions.BadRequest, raised by get_json *)

Inductive Res (A : Type) :=
| Ret (a : A)
| Raise (e : Exn).
Arguments Ret {A} a.
Arguments Raise {A} e.

(** ** The state-and-error monad

    A computation runs on a state [St] and either returns or raises; the
    state it leaves behind is kept in both cases, as the effects of a
    Python block are when an exception leaves it. *)

Definition M (St A : Type) : Type := St -> Res A * St.

Definition ret {St A} (a : A) : M St A := fun s => (Ret a, s).

Definition raise {St A} (e : Exn) : M St A := fun s => (Raise e, s).

Definition bind {St A B} (m : M St A) (k : A -> M St B) : M St B :=
  fun s => match m s with
           | (Ret a, s') => k a s'
           | (Raise e, s') => (Raise e, s')
           end.

Definition try_except {St A} (body handler : M St A) : M St A :=
  fun s => match body s with
           | (Ret a, s') => (Ret a, s')
           | (Raise _, s') => handler s'
           end.

Definition get {St} : M St St := fun s => (Ret s, s).
Definition gets {St A} (f : St -> A) : M St A := fun s => (Ret (f s), s).
Definition modify {St} (f : St -> St) : M St unit := fun s => (Ret tt, f s).

(** Run a computation on the second component of a pair state. *)
Definition lift_snd {L St A} (m : M St A) : M (L * St) A :=
  fun ls => match m ls.2 with (r, s') => (r, (ls.1, s')) end.

Declare Scope py_scope.
Delimit Scope py_scope with py.
Notation "'do' x <- m ; k" := (bind m (fun x => k))
  (at level 10, x name, m at level 100, k at level 200,
   format "'[v' 'do'  x  <-  m ; '/' k ']'") : py_scope.
Local Open Scope py_scope.

(** ** Frames *)

(** What [cv2.rectangle] and [cv2.putText] paint onto a frame. *)
Inductive Drawing :=
| Rectangle (x1 y1 x2 y2 : Z)
| Text (label : string) (x y : Z).

(** A frame is the pixel buffer the driver delivered, named by [raw], with
    the drawings painted onto it so far (latest last). *)
Record Frame := mkFrame {
  raw : nat;
  overlay : list Drawing
}.

Definition Jpeg := list Z.

(** One detected box of a YOLO result: [box.xyxy[0]] already through
    [map(int, ...)], [float(box.conf[0])] and [int(box.cls[0])]. *)
Record Box := mkBox {
  xyxy : Z * Z * Z * Z;
  conf : float;
  cls : Z
}.

(** ** The world outside the process *)

(** A [cv2.VideoCapture] object: its identity and the index it was built
    for.  Whether it is open is the world's business, not the object's. *)
Record VideoCapture := mkCap {
  cap_id : nat;
  cap_index : Z
}.

Inductive OpenOutcome := Opened | NotOpened | OpenRaises.
Inductive ReadOutcome := ReadFrame (f : Frame) | ReadNothing | ReadRaises.
Inductive ModelOutcome := ModelResults (results : list (list Box)) | ModelRaises.
Inductive EncodeOutcome := Encoded (j : Jpeg) | NotEncoded | EncodeRaises.
Inductive WriteOutcome := Written | WriteOpenFails | WriteDumpFails.

(** Every call into a collaborator is recorded, with what came back. *)
Inductive Event :=
| EvOpen (index : Z) (o : OpenOutcome)
| EvRead (index : Z) (o : ReadOutcome)
| EvRelease (index : Z)
| EvModel (o : ModelOutcome)
| EvEncode (o : EncodeOutcome)
| EvNow
| EvLoad (ok : bool)
| EvDump (o : WriteOutcome).

(** What [detection_log.json] holds. *)
Inductive FileContent :=
| Unparsable                 (* json.load raises *)
| Parsed (j : Json).

Record World := mkWorld {
  captures : list bool;          (* captures !! id: is that capture open *)
  log_file : option FileContent; (* None: the file does not exist *)
  trace : list Event             (* latest last *)
}.

(** The oracle.  The first argument of each field is the number of external
    calls made before this one.  [YOLO_AVAILABLE] is the module-level flag;
    the module sets [model] to [None] exactly when it is false, so the test
    [YOLO_AVAILABLE and model is not None] is the test of the flag. *)
Record Env := mkEnv {
  YOLO_AVAILABLE : bool;
  env_open : nat -> Z -> OpenOutcome;
  env_read : nat -> Z -> ReadOutcome;
  env_model : nat -> Frame -> ModelOutcome;
  env_names : Z -> option string;        (* model.names *)
  env_encode : nat -> Frame -> EncodeOutcome;
  env_now : nat -> string;               (* datetime.now().strftime(...) *)
  env_load_fails : nat -> bool;          (* open(log_file, 'r') raises *)
  env_dump : nat -> WriteOutcome;
  round4 : float -> float;               (* round(confidence, 4) *)
  fmt_percent : float -> string;         (* f"{confidence:.1%}" *)
  int_of_str : string -> option Z        (* int(s); None: ValueError *)
}.

Definition now_tick (w : World) : nat := length (trace w).

Definition record_event (e : Event) (w : World) : World :=
  {| captures := captures w; log_file := log_file w; trace := trace w ++ [e] |}.

Definition isOpened (c : VideoCapture) (w : World) : bool :=
  match captures w !! cap_id c with
  | Some b => b
  | None => false
  end.

(** ** Calls into the collaborators *)

(** [cv2.VideoCapture(index)]: a fresh capture object, open or not as the
    driver decides; the constructor itself may raise. *)
Definition VideoCapture_new (env : Env) (index : Z) : M World VideoCapture :=
  fun w =>
    let o := env_open env (now_tick w) index in
    let w' := record_event (EvOpen index o) w in
    let c := mkCap (length (captures w)) index in
    match o with
    | Opened =>
        (Ret c, {| captures := captures w' ++ [true];
                   log_file := log_file w'; trace := trace w' |})
    | NotOpened =>
        (Ret c, {| captures := captures w' ++ [false];
                   log_file := log_file w'; trace := trace w' |})
    | OpenRaises => (Raise CvError, w')
    end.

(** [cap.read()]: [Some frame] stands for [(True, frame)], [None] for
    [(False, None)], which is also what a capture that is not open gives. *)
Definition cap_read (env : Env) (c : VideoCapture) : M World (option Frame) :=
  fun w =>
    let o := if isOpened c w then env_read env (now_tick w) (cap_index c)
             else ReadNothing in
    let w' := record_event (EvRead (cap_index c) o) w in
    match o with
    | ReadFrame f => (Ret (Some f), w')
    | ReadNothing => (Ret None, w')
    | ReadRaises => (Raise CvError, w')
    end.

(** [cap.release()] *)
Definition cap_release (c : VideoCapture) : M World unit :=
  fun w =>
    let w' := record_event (EvRelease (cap_index c)) w in
    (Ret tt, {| captures := <[cap_id c := false]> (captures w');
                log_file := log_file w'; trace := trace w' |}).

(** [results = model(frame, conf=0.5, verbose=False)] *)
Definition model_call (env : Env) (frame : Frame) : M World (list (list Box)) :=
  fun w =>
    let o := env_model env (now_tick w) frame in
    let w' := record_event (EvModel o) w in
    match o with
    | ModelResults rs => (Ret rs, w')
    | ModelRaises => (Raise ModelError, w')
    end.

(** [cv2.imencode('.jpg', frame, ...)]: [Some jpeg] stands for
    [(True, jpeg)], [None] for a false [ret]. *)
Definition imencode (env : Env) (frame : Frame) : M World (option Jpeg) :=
  fun w =>
    let o := env_encode env (now_tick w) frame in
    let w' := record_event (EvEncode o) w in
    match o with
    | Encoded j => (Ret (Some j), w')
    | NotEncoded => (Ret None, w')
    | EncodeRaises => (Raise CvError, w')
    end.

(** [datetime.now().strftime("%Y-%m-%d %H:%M:%S")] *)
Definition now (env : Env) : M World string :=
  fun w => (Ret (env_now env (now_tick w)), record_event EvNow w).

(** [with open(log_file, 'r') as f: logs = json.load(f)], on a file that
    exists. *)
Definition load_log (env : Env) (content : FileContent) : M World Json :=
  fun w =>
    if env_load_fails env (now_tick w)
    then (Raise OSError, record_event (EvLoad false) w)
    else match content with
         | Unparsable => (Raise JSONDecodeError, record_event (EvLoad false) w)
         | Parsed j => (Ret j, record_event (EvLoad true) w)
         end.

(** [with open(log_file, 'w') as f: json.dump(logs, f, ...)].  Opening for
    writing truncates the file, so a dump that fails half way leaves a file
    that no longer parses. *)
Definition dump_log (env : Env) (logs : Json) : M World unit :=
  fun w =>
    let o := env_dump env (now_tick w) in
    let w' := record_event (EvDump o) w in
    match o with
    | Written =>
        (Ret tt, {| captures := captures w'; log_file := Some (Parsed logs);
                    trace := trace w' |})
    | WriteOpenFails => (Raise OSError, w')
    | WriteDumpFails =>
        (Raise OSError, {| captures := captures w'; log_file := Some Unparsable;
                           trace := trace w' |})
    end.

(** ** Python built-ins used on JSON values *)

(** [logs.append(x)]: only lists have it. *)
Definition py_append {St} (logs x : Json) : M St Json :=
  match logs with
  | JList l => ret (JList (l ++ [x]))
  | _ => raise AttributeError
  end.

(** [len(logs)], reached only for a list. *)
Definition py_len (logs : Json) : nat :=
  match logs with
  | JList l => length l
  | _ => 0%nat
  end.

(** [logs[-n:]] on a list. *)
Definition py_last (n : nat) (logs : Json) : Json :=
  match logs with
  | JList l => JList (drop (length l - n) l)
  | j => j
  end.

Fixpoint dict_lookup (key : string) (kvs : list (string * Json)) : option Json :=
  match kvs with
  | [] => None
  | (k, v) :: kvs' => if String.eqb k key then Some v else dict_lookup key kvs'
  end.

(** [data.get(key, default)]: only dicts have it. *)
Definition py_get {St} (data : Json) (key : string) (default : Json) : M St Json :=
  match data with
  | JDict kvs => ret (match dict_lookup key kvs with Some v => v | None => default end)
  | _ => raise AttributeError
  end.

(** [s.lower()] on the ASCII letters.  Python also lowers letters outside
    ASCII; none of them lowers to [o], [n] or [f], so comparing the result
    with ["on"] and ["off"] is not affected. *)
Definition ascii_lower (a : Ascii.ascii) : Ascii.ascii :=
  let n := Ascii.nat_of_ascii a in
  if ((65 <=? n) && (n <=? 90))%nat then Ascii.ascii_of_nat (n + 32) else a.

Fixpoint lower (s : string) : string :=
  match s with
  | EmptyString => EmptyString
  | String a s' => String (ascii_lower a) (lower s')
  end.

(** [x.lower()]: only strings have it. *)
Definition py_lower {St} (x : Json) : M St string :=
  match x with
  | JStr s => ret (lower s)
  | _ => raise AttributeError
  end.

(** ** The camera manager *)

Record CameraManager := mkCM {
  camera : option VideoCapture;
  is_running : bool;
  detection_count : Z;
  current_camera_index : Z
}.

(** [CameraManager.__init__] *)
Definition CameraManager_init : CameraManager :=
  {| camera := None; is_running := false;
     detection_count := 0; current_camera_index := 0 |}.

(** The process: the one [camera_manager] and the world around it. *)
Record Sys := mkSys {
  cm : CameraManager;
  world : World
}.

Definition lift_world {A} (m : M World A) : M Sys A :=
  fun s => match m (world s) with
           | (r, w') => (r, {| cm := cm s; world := w' |})
           end.

Definition set_camera (c : option VideoCapture) (s : Sys) : Sys :=
  {| cm := {| camera := c; is_running := is_running (cm s);
              detection_count := detection_count (cm s);
              current_camera_index := current_camera_index (cm s) |};
     world := world s |}.

Definition set_is_running (b : bool) (s : Sys) : Sys :=
  {| cm := {| camera := camera (cm s); is_running := b;
              detection_count := detection_count (cm s);
              current_camera_index := current_camera_index (cm s) |};
     world := world s |}.

Definition set_current_camera_index (i : Z) (s : Sys) : Sys :=
  {| cm := {| camera := camera (cm s); is_running := is_running (cm s);
              detection_count := detection_count (cm s);
              current_camera_index := i |};
     world := world s |}.

Definition set_detection_count (n : Z) (s : Sys) : Sys :=
  {| cm := {| camera := camera (cm s); is_running := is_running (cm s);
              detection_count := n;
              current_camera_index := current_camera_index (cm s) |};
     world := world s |}.

(** The texts of the [message] fields. *)
Inductive Message :=
| MsgAlreadyRunning              (* "이미 실행 중입니다" *)
| MsgConnectFailed (index : Z)   (* f"❌ {camera_index}번 카메라 연결 실패!" *)
| MsgStarted (index : Z)         (* f"✅ {camera_index}번 카메라 시작됨" *)
| MsgAlreadyStopped              (* "이미 중지 상태입니다" *)
| MsgStopped                     (* "⏹️ 카메라 종료됨" *)
| MsgBadRequest.                 (* "잘못된 요청" *)

(** The dict [{"success": ..., "message": ...}]. *)
Record Response := mkResponse {
  success : bool;
  message : Message
}.

(** [CameraManager.start]; the lock is taken up in [Module Threads]. *)
Definition start (env : Env) (camera_index : Z) : M Sys Response :=
  do running <- gets (fun s => is_running (cm s));
  if running then ret {| success := true; message := MsgAlreadyRunning |}
  else
    do c <- lift_world (VideoCapture_new env camera_index);
    do _ <- modify (set_camera (Some c));
    do opened <- gets (fun s => isOpened c (world s));
    if negb opened
    then ret {| success := false; message := MsgConnectFailed camera_index |}
    else
      do _ <- modify (set_is_running true);
      do _ <- modify (set_current_camera_index camera_index);
      ret {| success := true; message := MsgStarted camera_index |}.

(** [CameraManager.stop] *)
Definition stop : M Sys Response :=
  do running <- gets (fun s => is_running (cm s));
  if negb running then ret {| success := true; message := MsgAlreadyStopped |}
  else
    do _ <- modify (set_is_running false);
    do cam <- gets (fun s => camera (cm s));
    do _ <- match cam with
        | Some c =>
            do _ <- lift_world (cap_release c);
            modify (set_camera None)
        | None => ret tt
        end;
    ret {| success := true; message := MsgStopped |}.

(** [CameraManager.log_detection] *)
Definition log_detection (env : Env) (class_name : string) (confidence : float)
  : M Sys unit :=
  try_except
    (do file <- gets (fun s => log_file (world s));
     do logs <- match file with
                | Some content => lift_world (load_log env content)
                | None => ret (JList [])
                end;
     do timestamp <- lift_world (now env);
     do camera_idx <- gets (fun s => current_camera_index (cm s));
     let new_log := JDict [("timestamp", JStr timestamp);
                           ("class", JStr class_name);
                           ("confidence", JFloat (round4 env confidence));
                           ("camera_idx", JInt camera_idx)] in
     do logs <- py_append logs new_log;
     let logs := if (1000 <? py_len logs)%nat then py_last 1000 logs else logs in
     do _ <- lift_world (dump_log env logs);
     do n <- gets (fun s => detection_count (cm s));
     modify (set_detection_count (n + 1)))
    (ret tt).

(** [for x in l: body(x)] *)
Fixpoint for_each {St A} (l : list A) (body : A -> M St unit) : M St unit :=
  match l with
  | [] => ret tt
  | a :: l' => do _ <- body a; for_each l' body
  end.

Definition paint (d : Drawing) (fs : Frame * Sys) : Frame * Sys :=
  ({| raw := raw fs.1; overlay := overlay fs.1 ++ [d] |}, fs.2).

(** The body of the inner loop of [detect_objects].  The frame is painted in
    place, so it is part of the state the body runs on. *)
Definition detect_box (env : Env) (box : Box) : M (Frame * Sys) unit :=
  let '(x1, y1, x2, y2) := xyxy box in
  let confidence := conf box in
  do class_name <- match env_names env (cls box) with
                   | Some name => ret name
                   | None => raise KeyError
                   end;
  do _ <- modify (paint (Rectangle x1 y1 x2 y2));
  let label := class_name +:+ " " +:+ fmt_percent env confidence in
  do _ <- modify (paint (Text label x1 (y1 - 10)));
  lift_snd (log_detection env class_name confidence).

(** [CameraManager.detect_objects]: whatever happens inside the [try], the
    frame object, as painted so far, is returned. *)
Definition detect_objects (env : Env) (frame : Frame) : M Sys Frame :=
  fun s =>
    let body : M (Frame * Sys) unit :=
      try_except
        (do results <- lift_snd (lift_world (model_call env frame));
         for_each results (fun result => for_each result (detect_box env)))
        (ret tt) in
    match body (frame, s) with
    | (_, (frame', s')) => (Ret frame', s')
    end.

(** [CameraManager.get_frame]; [None] is Python's [None], "no frame". *)
Definition get_frame (env : Env) : M Sys (option Jpeg) :=
  do s <- get;
  match is_running (cm s), camera (cm s) with
  | true, Some cam =>
      try_except
        (do r <- lift_world (cap_read env cam);
         match r with
         | None => ret None
         | Some frame =>
             do frame <- (if YOLO_AVAILABLE env then detect_objects env frame
                          else ret frame);
             do j <- lift_world (imencode env frame);
             match j with
             | Some jpeg => ret (Some jpeg)
             | None => ret None
             end
         end)
        (ret None)
  | _, _ => ret None
  end.

(** The dict [get_status] returns. *)
Record Status := mkStatus {
  st_camera_on : bool;
  st_current_idx : Z;
  st_yolo_available : bool;
  st_detection_count : Z
}.

(** [CameraManager.get_status] *)
Definition get_status (env : Env) : M Sys Status :=
  do s <- get;
  ret {| st_camera_on := is_running (cm s);
         st_current_idx := current_camera_index (cm s);
         st_yolo_available := YOLO_AVAILABLE env;
         st_detection_count := detection_count (cm s) |}.

(** ** The device registry and the control endpoint *)

(** What CPython does when the last reference to a capture object goes
    away: the destructor of [cv2.VideoCapture] releases the device.  The
    program makes no call for it, so no event is recorded. *)
Definition finalize (c : VideoCapture) (w : World) : World :=
  {| captures := <[cap_id c := false]> (captures w);
     log_file := log_file w; trace := trace w |}.

(** The local variables of [get_available_cameras]. *)
Record ScanLocals := mkScanLocals {
  available_cameras : list Z;
  cap : option VideoCapture
}.

(** [cap = ...]: the name is bound to the new object, and the object it
    named before, which nothing else refers to, is finalised. *)
Definition bind_cap (c : VideoCapture) : M (ScanLocals * World) unit :=
  fun lw =>
    (Ret tt,
     ({| available_cameras := available_cameras lw.1; cap := Some c |},
      match cap lw.1 with
      | Some old => finalize old lw.2
      | None => lw.2
      end)).

(** [available_cameras.append(i)] *)
Definition append_camera (i : Z) (lw : ScanLocals * World) : ScanLocals * World :=
  ({| available_cameras := available_cameras lw.1 ++ [i]; cap := cap lw.1 |}, lw.2).

(** The body of the loop of [get_available_cameras]; the locals are part
    of the state the body runs on. *)
Definition probe (env : Env) (i : Z) : M (ScanLocals * World) unit :=
  try_except
    (do c <- lift_snd (VideoCapture_new env i);
     do _ <- bind_cap c;
     do opened <- gets (fun lw => isOpened c lw.2);
     if opened then
       do r <- lift_snd (cap_read env c);
       do _ <- match r with
           | Some _ => modify (append_camera i)
           | None => ret tt
           end;
       lift_snd (cap_release c)
     else ret tt)
    (ret tt).

(** [range(n)] *)
Definition range (n : nat) : list Z := seqZ 0 (Z.of_nat n).

(** The function returns and its locals go away: the capture [cap] still
    names is finalised. *)
Definition drop_locals (locals : ScanLocals) (w : World) : World :=
  match cap locals with
  | Some c => finalize c w
  | None => w
  end.

(** [get_available_cameras] *)
Definition get_available_cameras (env : Env) : M World (list Z) :=
  fun w =>
    match for_each (range 4) (probe env)
            ({| available_cameras := []; cap := None |}, w) with
    | (Ret _, (locals, w')) => (Ret (available_cameras locals), drop_locals locals w')
    | (Raise e, (locals, w')) => (Raise e, drop_locals locals w')
    end.

(** The body of a POST to [/control]: bytes that do not parse, or a parsed
    JSON value. *)
Inductive RequestBody :=
| Malformed
| Body (j : Json).

(** [request.get_json()]: on a body that does not parse Flask raises
    [BadRequest]. *)
Definition get_json {St} (request : RequestBody) : M St Json :=
  match request with
  | Malformed => raise BadRequest
  | Body j => ret j
  end.

(** [int(x)] on a JSON value. *)
Definition py_int {St} (env : Env) (x : Json) : M St Z :=
  match x with
  | JInt z => ret z
  | JBool b => ret (if b then 1 else 0)
  | JFloat q =>
      ret (Z.quot (QArith_base.Qnum (Qcanon.this q))
                  (Z.pos (QArith_base.Qden (Qcanon.this q))))
  | JStr s => match int_of_str env s with
              | Some z => ret z
              | None => raise ValueError
              end
  | JNull | JList _ | JDict _ => raise TypeError
  end.

(** The view function [control].  A [Raise] leaves the view: Flask then
    answers with an error page in place of the JSON of a [Response]. *)
Definition control (env : Env) (request : RequestBody) : M Sys Response :=
  do data <- get_json request;
  do action <- py_get data "action" (JStr "");
  do action <- py_lower action;
  if String.eqb action "on" then
    do idx <- py_get data "camera_index" (JInt 0);
    do idx <- py_int env idx;
    start env idx
  else if String.eqb action "off" then
    stop
  else
    ret {| success := false; message := MsgBadRequest |}.

(** ** Sequences of calls on the manager *)

Inductive Op :=
| OpStart (index : Z)
| OpStop
| OpGetFrame
| OpGetStatus.

(** The state a call leaves behind, whether it returned or raised. *)
Definition exec (env : Env) (op : Op) (s : Sys) : Sys :=
  match op with
  | OpStart index => (start env index s).2
  | OpStop => (stop s).2
  | OpGetFrame => (get_frame env s).2
  | OpGetStatus => (get_status env s).2
  end.

Definition exec_all (env : Env) (ops : list Op) (s : Sys) : Sys :=
  foldl (fun s op => exec env op s) s ops.

(** The process right after [camera_manager = CameraManager()], in a world
    [w]. *)
Definition boot (w : World) : Sys := {| cm := CameraManager_init; world := w |}.

Definition fresh_world : World :=
  {| captures := []; log_file := None; trace := [] |}.

(** ** Sample environments *)

Definition sample_frame (t : nat) : Frame := {| raw := t; overlay := [] |}.

Definition half : float := Qcanon.Q2Qc (QArith_base.Qmake 1 2).

(** Every device opens and reads, the model sees nothing, the codec and
    the disk work. *)
Definition env_fine : Env :=
  {| YOLO_AVAILABLE := true;
     env_open := fun _ _ => Opened;
     env_read := fun t _ => ReadFrame (sample_frame t);
     env_model := fun _ _ => ModelResults [];
     env_names := fun c => if c =? 0 then Some "person" else None;
     env_encode := fun _ f => Encoded [Z.of_nat (raw f); Z.of_nat (length (overlay f))];
     env_now := fun _ => "2024-01-01 00:00:00";
     env_load_fails := fun _ => false;
     env_dump := fun _ => Written;
     round4 := fun q => q;
     fmt_percent := fun _ => "50.0%";
     int_of_str := fun _ => None |}.

Definition with_open (o : nat -> Z -> OpenOutcome) (env : Env) : Env :=
  {| YOLO_AVAILABLE := YOLO_AVAILABLE env; env_open := o;
     env_read := env_read env; env_model := env_model env;
     env_names := env_names env; env_encode := env_encode env;
     env_now := env_now env; env_load_fails := env_load_fails env;
     env_dump := env_dump env; round4 := round4 env;
     fmt_percent := fmt_percent env; int_of_str := int_of_str env |}.

Definition with_read (r : nat -> Z -> ReadOutcome) (env : Env) : Env :=
  {| YOLO_AVAILABLE := YOLO_AVAILABLE env; env_open := env_open env;
     env_read := r; env_model := env_model env;
     env_names := env_names env; env_encode := env_encode env;
     env_now := env_now env; env_load_fails := env_load_fails env;
     env_dump := env_dump env; round4 := round4 env;
     fmt_percent := fmt_percent env; int_of_str := int_of_str env |}.

Definition with_model (m : nat -> Frame -> ModelOutcome) (env : Env) : Env :=
  {| YOLO_AVAILABLE := YOLO_AVAILABLE env; env_open := env_open env;
     env_read := env_read env; env_model := m;
     env_names := env_names env; env_encode := env_encode env;
     env_now := env_now env; env_load_fails := env_load_fails env;
     env_dump := env_dump env; round4 := round4 env;
     fmt_percent := fmt_percent env; int_of_str := int_of_str env |}.

(** No device opens. *)
Definition env_no_device : Env := with_open (fun _ _ => NotOpened) env_fine.

(** Only device 1 opens. *)
Definition env_only_1 : Env :=
  with_open (fun _ i => if i =? 1 then Opened else NotOpened) env_fine.

(** The model raises on every frame. *)
Definition env_model_broken : Env := with_model (fun _ _ => ModelRaises) env_fine.

(** Every other read fails: the reads at an even count of earlier calls
    deliver nothing. *)
Definition env_flaky : Env :=
  with_read (fun t _ => if Nat.even t then ReadNothing
                        else ReadFrame (sample_frame t)) env_fine.

(** The model finds one person in every frame. *)
Definition env_one_person : Env :=
  with_model (fun _ _ => ModelResults [[mkBox (10, 20, 30, 40) half 0]]) env_fine.

(** ** Observations on runs *)

(** The external calls made between two worlds. *)
Definition new_events (w w' : World) : list Event :=
  drop (length (trace w)) (trace w').

Definition is_written (e : Event) : bool :=
  match e with
  | EvDump Written => true
  | _ => false
  end.

(** How many times the log file was written in full. *)
Definition written (evs : list Event) : nat := length (filter is_written evs).

(** The list the log file holds; a file that does not exist yet counts as
    the empty list, as in [log_detection]. *)
Definition file_list (w : World) : option (list Json) :=
  match log_file w with
  | None => Some []
  | Some (Parsed (JList l)) => Some l
  | Some _ => None
  end.

(** [l[-n:]] *)
Definition keep_last {A} (n : nat) (l : list A) : list A := drop (length l - n) l.

(** The record [log_detection] appends for a detection. *)
Definition log_entry (env : Env) (timestamp : string) (camera_idx : Z)
    (det : string * float) : Json :=
  JDict [("timestamp", JStr timestamp); ("class", JStr det.1);
         ("confidence", JFloat (round4 env det.2)); ("camera_idx", JInt camera_idx)].

Definition is_entry_of (env : Env) (camera_idx : Z) (det : string * float)
    (entry : Json) : Prop :=
  exists timestamp, entry = log_entry env timestamp camera_idx det.

(** [log_detection] called once per detection, in order. *)
Definition log_all (env : Env) (dets : list (string * float)) : M Sys unit :=
  for_each dets (fun det => log_detection env det.1 det.2).

(** A start that opened the device and switched the session on. *)
Definition switched_on (r : Res Response) : bool :=
  match r with
  | Ret {| success := true; message := MsgStarted _ |} => true
  | _ => false
  end.

(** The index of the last start that switched the session on while [ops]
    ran from [s]; [last] if there was none. *)
Fixpoint last_started (env : Env) (ops : list Op) (s : Sys) (last : Z) : Z :=
  match ops with
  | [] => last
  | op :: ops' =>
      last_started env ops' (exec env op s)
        match op with
        | OpStart index => if switched_on (start env index s).1 then index else last
        | _ => last
        end
  end.

(** What a probe of the registry scan reported for index [i]. *)
Definition opened_ok (i : Z) (e : Event) : bool :=
  match e with
  | EvOpen j Opened => bool_decide (j = i)
  | _ => false
  end.

Definition read_ok (i : Z) (e : Event) : bool :=
  match e with
  | EvRead j (ReadFrame _) => bool_decide (j = i)
  | _ => false
  end.

Definition probed_ok (evs : list Event) (i : Z) : bool :=
  existsb (opened_ok i) evs && existsb (read_ok i) evs.

(** The device index an event is about. *)
Definition event_index (e : Event) : option Z :=
  match e with
  | EvOpen i _ | EvRead i _ | EvRelease i => Some i
  | _ => None
  end.

(** ** Relations between the state before and after a computation *)

Definition transits {St A} (R : relation St) (m : M St A) : Prop :=
  forall s, R s (m s).2.

(** The session fields and the captures are as before. *)
Definition quiet : relation Sys := fun s s' =>
  camera (cm s') = camera (cm s) /\
  is_running (cm s') = is_running (cm s) /\
  current_camera_index (cm s') = current_camera_index (cm s) /\
  captures (world s') = captures (world s).

(** The trace has grown, and the counter by the number of log writes. *)
Definition counted : relation Sys := fun s s' =>
  exists evs, trace (world s') = trace (world s) ++ evs /\
    detection_count (cm s') = detection_count (cm s) + Z.of_nat (written evs).

(** The same two relations for the loop of [detect_objects], which runs on
    the frame and the process. *)
Definition on_snd {L St} (R : relation St) : relation (L * St) :=
  fun a b => R a.2 b.2.

(** What one call of [log_detection] can do to the process: the record is
    written and counted, or it is lost and nothing is counted. *)
Inductive log_outcome (env : Env) (det : string * float) (s : Sys) : Sys -> Prop :=
| log_recorded (l : list Json) (timestamp : string) (evs : list Event) :
    file_list (world s) = Some l ->
    written evs = 1%nat ->
    log_outcome env det s
      {| cm := {| camera := camera (cm s); is_running := is_running (cm s);
                  detection_count := detection_count (cm s) + 1;
                  current_camera_index := current_camera_index (cm s) |};
         world := {| captures := captures (world s);
                     log_file := Some (Parsed (JList (keep_last 1000
                       (l ++ [log_entry env timestamp
                                (current_camera_index (cm s)) det]))));
                     trace := trace (world s) ++ evs |} |}
| log_lost (file : option FileContent) (evs : list Event) :
    written evs = 0%nat ->
    log_outcome env det s
      {| cm := cm s;
         world := {| captures := captures (world s); log_file := file;
                     trace := trace (world s) ++ evs |} |}.

(** ** Sample states *)

(** The session after a successful [start(1)] in a fresh world. *)
Definition running_on_1 : Sys := exec env_fine (OpStart 1) (boot fresh_world).

Definition two_detections : list (string * float) := [("person", half); ("dog", half)].

(** The session holds a capture object that is open. *)
Definition holds_open_capture (s : Sys) : Prop :=
  exists c, camera (cm s) = Some c /\ isOpened c (world s) = true.

(** A request whose action is a number: [{"action": 1}]. *)
Definition request_action_1 : RequestBody := Body (JDict [("action", JInt 1)]).



(** ** Request threads

    Flask runs with [threaded=True]: every request is served by its own
    thread, and all of them call into the one [camera_manager].  A thread
    is at a program point of the method it runs; one step takes it to the
    next program point, and between two steps any other thread may run.
    [with self.lock] is the step that takes the lock, enabled only while
    the lock is free, and the step that gives it back when the block is
    left, by [return] or by an exception. *)

Module Threads.

Inductive Call :=
| CallStart (index : Z)
| CallStop
| CallGetFrame.

Inductive PC :=
| Idle                           (* between two calls *)
(* start *)
| StartAcquire (index : Z)       (* with self.lock: *)
| StartCheck (index : Z)         (* if self.is_running: return *)
| StartOpen (index : Z)          (* self.camera = cv2.VideoCapture(camera_index) *)
| StartIsOpened (index : Z)      (* if not self.camera.isOpened(): return *)
| StartSetRunning (index : Z)    (* self.is_running = True *)
| StartSetIndex (index : Z)      (* self.current_camera_index = camera_index *)
| StartRelease                   (* the end of the with block *)
(* stop *)
| StopAcquire                    (* with self.lock: *)
| StopCheck                      (* if not self.is_running: return *)
| StopClearRunning               (* self.is_running = False *)
| StopReleaseCamera              (* if self.camera: self.camera.release() *)
| StopClearCamera                (* self.camera = None *)
| StopRelease                    (* the end of the with block *)
(* get_frame: no with block *)
| FrameGuard                     (* if not self.is_running or self.camera is None *)
| FrameRead                      (* self.camera.read(): the field is fetched *)
| FrameReading (c : VideoCapture). (* inside c.read(), waiting for the driver *)

Record Thread := mkThread {
  pc : PC;
  todo : list Call               (* the calls it has still to make *)
}.

Record Config := mkConfig {
  sys : Sys;
  lock : option nat;             (* the thread that holds self.lock *)
  threads : list Thread
}.

(** The program points inside a [with self.lock] block. *)
Definition in_with_block (p : PC) : bool :=
  match p with
  | StartCheck _ | StartOpen _ | StartIsOpened _ | StartSetRunning _
  | StartSetIndex _ | StartRelease
  | StopCheck | StopClearRunning | StopReleaseCamera | StopClearCamera
  | StopRelease => true
  | _ => false
  end.

(** The program points of [get_frame] that use the capture. *)
Definition touches_device (p : PC) : bool :=
  match p with
  | FrameRead | FrameReading _ => true
  | _ => false
  end.

Definition enter (call : Call) : PC :=
  match call with
  | CallStart index => StartAcquire index
  | CallStop => StopAcquire
  | CallGetFrame => FrameGuard
  end.

(** What [get_frame] does once [read] has returned a frame: the rest of
    its [try] block. *)
Definition after_read (env : Env) (frame : Frame) : M Sys (option Jpeg) :=
  do frame <- (if YOLO_AVAILABLE env then detect_objects env frame
               else ret frame);
  do j <- lift_world (imencode env frame);
  match j with
  | Some jpeg => ret (Some jpeg)
  | None => ret None
  end.

(** [c.read()] returning inside [get_frame], and the rest of the method. *)
Definition finish_read (env : Env) (c : VideoCapture) : M Sys (option Jpeg) :=
  try_except
    (do r <- lift_world (cap_read env c);
     match r with
     | None => ret None
     | Some frame => after_read env frame
     end)
    (ret None).

Definition goto (t : nat) (p : PC) (s : Sys) (l : option nat) (cfg : Config)
  : Config :=
  match threads cfg !! t with
  | Some th =>
      {| sys := s; lock := l;
         threads := <[t := {| pc := p; todo := todo th |}]> (threads cfg) |}
  | None => cfg
  end.

(** One step of thread [t]; [None] when there is no such thread, when it
    has nothing left to do, or when it waits for the lock. *)
Definition step (env : Env) (t : nat) (cfg : Config) : option Config :=
  match threads cfg !! t with
  | None => None
  | Some th =>
      let s := sys cfg in
      let l := lock cfg in
      match pc th with
      | Idle =>
          match todo th with
          | [] => None
          | call :: rest =>
              Some {| sys := s; lock := l;
                      threads := <[t := {| pc := enter call; todo := rest |}]>
                                   (threads cfg) |}
          end
      | StartAcquire index =>
          match l with
          | None => Some (goto t (StartCheck index) s (Some t) cfg)
          | Some _ => None
          end
      | StartCheck index =>
          if is_running (cm s) then Some (goto t StartRelease s l cfg)
          else Some (goto t (StartOpen index) s l cfg)
      | StartOpen index =>
          match lift_world (VideoCapture_new env index) s with
          | (Ret c, s') => Some (goto t (StartIsOpened index) (set_camera (Some c) s') l cfg)
          | (Raise _, s') => Some (goto t StartRelease s' l cfg)
          end
      | StartIsOpened index =>
          match camera (cm s) with
          | Some c =>
              if isOpened c (world s) then Some (goto t (StartSetRunning index) s l cfg)
              else Some (goto t StartRelease s l cfg)
          | None => Some (goto t StartRelease s l cfg)
          end
      | StartSetRunning index =>
          Some (goto t (StartSetIndex index) (set_is_running true s) l cfg)
      | StartSetIndex index =>
          Some (goto t StartRelease (set_current_camera_index index s) l cfg)
      | StartRelease => Some (goto t Idle s None cfg)
      | StopAcquire =>
          match l with
          | None => Some (goto t StopCheck s (Some t) cfg)
          | Some _ => None
          end
      | StopCheck =>
          if negb (is_running (cm s)) then Some (goto t StopRelease s l cfg)
          else Some (goto t StopClearRunning s l cfg)
      | StopClearRunning =>
          Some (goto t StopReleaseCamera (set_is_running false s) l cfg)
      | StopReleaseCamera =>
          match camera (cm s) with
          | Some c =>
              Some (goto t StopClearCamera (lift_world (cap_release c) s).2 l cfg)
          | None => Some (goto t StopRelease s l cfg)
          end
      | StopClearCamera => Some (goto t StopRelease (set_camera None s) l cfg)
      | StopRelease => Some (goto t Idle s None cfg)
      | FrameGuard =>
          match is_running (cm s), camera (cm s) with
          | true, Some _ => Some (goto t FrameRead s l cfg)
          | _, _ => Some (goto t Idle s l cfg)
          end
      | FrameRead =>
          match camera (cm s) with
          | Some c => Some (goto t (FrameReading c) s l cfg)
          | None => Some (goto t Idle s l cfg)   (* AttributeError, caught *)
          end
      | FrameReading c => Some (goto t Idle (finish_read env c s).2 l cfg)
      end
  end.

(** The threads run in the order the schedule names them. *)
Fixpoint run (env : Env) (schedule : list nat) (cfg : Config) : option Config :=
  match schedule with
  | [] => Some cfg
  | t :: schedule' =>
      match step env t cfg with
      | Some cfg' => run env schedule' cfg'
      | None => None
      end
  end.

(** The server with its request threads about to make their calls. *)
Definition spawn (s : Sys) (calls : list (list Call)) : Config :=
  {| sys := s; lock := None;
     threads := map (fun cs => {| pc := Idle; todo := cs |}) calls |}.

(** The method a call stands for, run without interruption. *)
Definition method (env : Env) (call : Call) (s : Sys) : Sys :=
  match call with
  | CallStart index => (start env index s).2
  | CallStop => (stop s).2
  | CallGetFrame => (get_frame env s).2
  end.

(** Every thread inside a [with self.lock] block holds the lock. *)
Definition lock_held_in_with_blocks (cfg : Config) : Prop :=
  forall t th, threads cfg !! t = Some th ->
    in_with_block (pc th) = true -> lock cfg = Some t.

(** Every thread of [get_frame] that is using the capture holds the lock:
    what the lock discipline of the spec asks of [get_frame]. *)
Definition frames_read_under_lock (cfg : Config) : Prop :=
  forall t th, threads cfg !! t = Some th ->
    touches_device (pc th) = true -> lock cfg = Some t.

(** Thread 0 starts camera 0 and then asks for a frame; thread 1 stops the
    camera. *)
Definition viewer_and_stopper : Config :=
  spawn (boot fresh_world) [[CallStart 0; CallGetFrame]; [CallStop]].

(** Thread 0 runs [start(0)] to its end and [get_frame] up to the point
    where it waits inside [read]; then thread 1 runs [stop()] to its end. *)
Definition stop_during_read : list nat :=
  replicate 8 0%nat ++ replicate 3 0%nat ++ replicate 7 1%nat.

(** Two threads both start a camera. *)
Definition two_starters : Config :=
  spawn (boot fresh_world) [[CallStart 0]; [CallStart 1]].

End Threads.

(** ** The routes

    The view functions behind [/cameras], [/status] and [/video_feed];
    [control] is above.  [jsonify] is the identity here. *)

(** [list_cameras] *)
Definition list_cameras (env : Env) : M Sys (list Z) :=
  lift_world (get_available_cameras env).

(** [status] *)
Definition status (env : Env) : M Sys Status := get_status env.

(** The bytes of a Python [bytes] literal without escapes. *)
Definition bytes_of (s : string) : list Z :=
  (fun a => Z.of_nat (Ascii.nat_of_ascii a)) <$> String.list_ascii_of_string s.

Definition CRLF : list Z := [13; 10].

(** [b'--frame\r\n' b'Content-Type: image/jpeg\r\n\r\n' + frame + b'\r\n'] *)
Definition multipart (frame : Jpeg) : list Z :=
  ((bytes_of "--frame" ++ CRLF) ++
   (bytes_of "Content-Type: image/jpeg" ++ CRLF ++ CRLF)) ++ frame ++ CRLF.

(** What one turn of the loop of [generate] does: it yields a part, or it
    sleeps for 0.1 s. *)
Inductive FeedItem :=
| Part (chunk : list Z)
| Sleep.

(** The body of [while True] in [generate]. *)
Definition generate_turn (env : Env) : M Sys FeedItem :=
  do frame <- get_frame env;
  match frame with
  | Some frame => ret (Part (multipart frame))
  | None => ret Sleep
  end.

(** The first [turns] turns of the loop of [generate], which has no exit
    of its own. *)
Fixpoint generate (env : Env) (turns : nat) : M Sys (list FeedItem) :=
  match turns with
  | O => ret []
  | S turns' =>
      do item <- generate_turn env;
      do items <- generate env turns';
      ret (item :: items)
  end.

(** A request to the server: one of the four routes; for [/video_feed],
    one turn of the loop of the stream. *)
Inductive Request :=
| GetCameras
| PostControl (body : RequestBody)
| GetVideoFeedTurn
| GetStatus.

(** The state a request leaves behind. *)
Definition serve (env : Env) (request : Request) (s : Sys) : Sys :=
  match request with
  | GetCameras => (list_cameras env s).2
  | PostControl body => (control env body s).2
  | GetVideoFeedTurn => (generate_turn env s).2
  | GetStatus => (status env s).2
  end.

Definition serve_all (env : Env) (requests : list Request) (s : Sys) : Sys :=
  foldl (fun s request => serve env request s) s requests.

(** ** More observations *)

(** How many capture objects are open. *)
Definition open_captures (w : World) : nat :=
  length (List.filter (fun b : bool => b) (captures w)).

(** The calls of a tick that runs without the detector. *)
Definition is_read_or_encode (e : Event) : bool :=
  match e with
  | EvRead _ _ | EvEncode _ => true
  | _ => false
  end.

(** The rectangle and the label [detect_objects] paints for a box of class
    [name]. *)
Definition box_drawings (env : Env) (box : Box) (name : string) : list Drawing :=
  let '(x1, y1, x2, y2) := xyxy box in
  [Rectangle x1 y1 x2 y2;
   Text (name +:+ " " +:+ fmt_percent env (conf box)) x1 (y1 - 10)].

(** The boxes before the first one whose class [model.names] does not
    know, each with its class name. *)
Fixpoint named_prefix (env : Env) (boxes : list Box) : list (Box * string) :=
  match boxes with
  | [] => []
  | box :: boxes' =>
      match env_names env (cls box) with
      | Some name => (box, name) :: named_prefix env boxes'
      | None => []
      end
  end.

Definition drawings_of (env : Env) (named : list (Box * string)) : list Drawing :=
  concat ((fun bn => box_drawings env bn.1 bn.2) <$> named).

Definition detections_of (named : list (Box * string)) : list (string * float) :=
  (fun bn => (bn.2, conf bn.1)) <$> named.

(** The process after the model has been called on [frame] with outcome
    [o]. *)
Definition after_model (o : ModelOutcome) (s : Sys) : Sys :=
  {| cm := cm s; world := record_event (EvModel o) (world s) |}.

(** A log file [log_detection] cannot use: it does not parse, or what it
    holds is not a list. *)
Definition log_unusable (w : World) : Prop := file_list w = None.

(** A thread that has not finished. *)
Definition has_work (th : Threads.Thread) : Prop :=
  Threads.pc th <> Threads.Idle \/ Threads.todo th <> [].

(** The lock is held only by a thread inside a [with self.lock] block. *)
Definition lock_holder_in_with_block (cfg : Threads.Config) : Prop :=
  forall t, Threads.lock cfg = Some t ->
    exists th, Threads.threads cfg !! t = Some th /\
               Threads.in_with_block (Threads.pc th) = true.

(** ** More sample environments and states *)


Definition without_yolo (env : Env) : Env :=
  {| YOLO_AVAILABLE := false; env_open := env_open env;
     env_read := env_read env; env_model := env_model env;
     env_names := env_names env; env_encode := env_encode env;
     env_now := env_now env; env_load_fails := env_load_fails env;
     env_dump := env_dump env; round4 := round4 env;
     fmt_percent := fmt_percent env; int_of_str := int_of_str env |}.

(** The model failed to load. *)
Definition env_no_yolo : Env := without_yolo env_fine.

(** A person, then a box of a class [model.names] does not know, then
    another person. *)
Definition env_unknown_class : Env :=
  with_model (fun _ _ => ModelResults [[mkBox (10, 20, 30, 40) half 0];
                                         [mkBox (1, 2, 3, 4) half 7;
                                          mkBox (5, 6, 7, 8) half 0]]) env_fine.

(** Every device opens and every read raises. *)
Definition env_read_raises : Env := with_read (fun _ _ => ReadRaises) env_fine.

(** A world whose log file does not parse. *)
Definition world_bad_log : World :=
  {| captures := []; log_file := Some Unparsable; trace := [] |}.

(** The body [{"action": "ON"}]. *)
Definition request_on : RequestBody := Body (JDict [("action", JStr "ON")]).

(** The session and the captures agree: RUNNING exactly when the field
    holds an open capture, a capture in the field is one the world knows,
    and [base] captures are open besides the one of a RUNNING session. *)
Definition captures_accounted (base : nat) (s : Sys) : Prop :=
  (is_running (cm s) = true <-> holds_open_capture s) /\
  (forall c, camera (cm s) = Some c -> (cap_id c < length (captures (world s)))%nat) /\
  open_captures (world s) = (base + if is_running (cm s) then 1 else 0)%nat.

(** A scan, a start, a frame, the status, a stop. *)
Definition busy_morning : list Request :=
  [GetCameras; PostControl request_on; GetVideoFeedTurn; GetStatus;
   PostControl (Body (JDict [("action", JStr "off")]))].

(** Where [stop_during_read] leaves [viewer_and_stopper]. *)
Definition stopped_under_reader : Threads.Config :=
  Eval vm_compute in
    default Threads.viewer_and_stopper
      (Threads.run env_fine Threads.stop_during_read Threads.viewer_and_stopper).

(** The first of two starters is inside its [with] block, the second is
    at [with self.lock]. *)
Definition one_starter_inside : Threads.Config :=
  Eval vm_compute in
    default Threads.two_starters
      (Threads.run env_fine [0; 0; 1]%nat Threads.two_starters).

(** ** What the scan, the logger and the tick owe to the driver and the disk *)

(** What a probe of index [i] finds when it starts after [t] external
    calls: the device opens and the read, the next call, delivers a
    frame. *)
Definition probe_finds (env : Env) (t : nat) (i : Z) : bool :=
  match env_open env t i with
  | Opened => match env_read env (S t) i with
              | ReadFrame _ => true
              | _ => false
              end
  | _ => false
  end.

(** The external calls of that probe: open, then read when the device
    opened, then release unless the read raised. *)
Definition probe_calls (env : Env) (t : nat) (i : Z) : list Event :=
  match env_open env t i with
  | Opened =>
      EvOpen i Opened ::
      match env_read env (S t) i with
      | ReadRaises => [EvRead i ReadRaises]
      | o => [EvRead i o; EvRelease i]
      end
  | o => [EvOpen i o]
  end.

(** The candidates a scan finds, in the order it tries them, each probe
    starting where the one before ended. *)
Fixpoint scan_finds (env : Env) (t : nat) (candidates : list Z) : list Z :=
  match candidates with
  | [] => []
  | i :: candidates' =>
      (if probe_finds env t i then [i] else []) ++
      scan_finds env (t + length (probe_calls env t i)) candidates'
  end.


(** The answer of a call says [success: True]. *)
Definition answered_success (r : Res Response) : bool :=
  match r with
  | Ret {| success := true |} => true
  | _ => false
  end.

(** The index of the last [start] that answered success while [ops] ran
    from [s]; [last] if there was none. *)
Fixpoint last_successful (env : Env) (ops : list Op) (s : Sys) (last : Z) : Z :=
  match ops with
  | [] => last
  | op :: ops' =>
      last_successful env ops' (exec env op s)
        match op with
        | OpStart index =>
            if answered_success (start env index s).1 then index else last
        | _ => last
        end
  end.

(** The claim about the index with "successful start" read by the success
    flag of the answer: after a [stop()], [get_status] reports the index
    of the last [start] that answered success, 0 if there was none. *)
Definition status_reports_last_successful_start : Prop :=
  forall env ops w st,
    (get_status env (exec_all env (ops ++ [OpStop]) (boot w))).1 = Ret st ->
    st_current_idx st = last_successful env ops (boot w) 0.




(** A log that already holds 1000 records. *)
Definition world_full_log : World :=
  {| captures := [];
     log_file := Some (Parsed (JList (replicate 1000 (JInt 0))));
     trace := [] |}.

(** The state after [k] calls of [get_frame]. *)
Definition polled (env : Env) (k : nat) (s : Sys) : Sys :=
  exec_all env (replicate k OpGetFrame) s.

(** What holds of the captures while a scan that started in a world with
    captures [caps0] runs: those captures are as they were, the local
    [cap] names a capture the scan made, and a capture of the scan that is
    open is the one [cap] names. *)
Definition scan_inv (caps0 : list bool) (keep : option VideoCapture)
    (caps : list bool) : Prop :=
  take (length caps0) caps = caps0 /\
  (length caps0 <= length caps)%nat /\
  (forall o, keep = Some o -> (length caps0 <= cap_id o < length caps)%nat) /\
  (forall j, (length caps0 <= j)%nat -> caps !! j = Some true ->
     exists o, keep = Some o /\ cap_id o = j).

(** * Properties *)

(** ** The monad combinators respect preorders on the state *)

Section Transits.
Context {St : Type} (R : relation St) `{!PreOrder R}.

Lemma transits_ret {A} (a : A) : transits R (ret a).
Proof. intros s. reflexivity. Qed.

Lemma transits_raise {A} (e : Exn) : transits R (raise (A := A) e).
Proof. intros s. reflexivity. Qed.

Lemma transits_gets {A} (f : St -> A) : transits R (gets f).
Proof. intros s. reflexivity. Qed.

Lemma transits_get : transits R get.
Proof. intros s. reflexivity. Qed.

Lemma transits_modify (f : St -> St) :
  (forall s, R s (f s)) -> transits R (modify f).
Proof. intros H s. apply H. Qed.

Lemma transits_bind {A B} (m : M St A) (k : A -> M St B) :
  transits R m -> (forall a, transits R (k a)) -> transits R (bind m k).
Proof.
  intros Hm Hk s. unfold bind. specialize (Hm s).
  destruct (m s) as [[a|e] s1]; simpl in *; [|done].
  etransitivity; [exact Hm | apply Hk].
Qed.

Lemma transits_try_except {A} (body handler : M St A) :
  transits R body -> transits R handler -> transits R (try_except body handler).
Proof.
  intros Hb Hh s. unfold try_except. specialize (Hb s).
  destruct (body s) as [[a|e] s1]; simpl in *; [done|].
  etransitivity; [exact Hb | apply Hh].
Qed.

Lemma transits_for_each {A} (l : list A) (body : A -> M St unit) :
  (forall a, transits R (body a)) -> transits R (for_each l body).
Proof.
  intros Hb. induction l as [|a l IH]; simpl.
  - apply transits_ret.
  - apply transits_bind; [apply Hb | intros _; exact IH].
Qed.

Lemma transits_lift_snd {L A} (m : M St A) :
  transits R m -> transits (on_snd (L := L) R) (lift_snd m).
Proof.
  intros Hm [l s]. unfold lift_snd, on_snd. simpl. specialize (Hm s).
  destruct (m s) as [r s1]. exact Hm.
Qed.
End Transits.

#[export] Instance on_snd_preorder {L St} (R : relation St) `{!PreOrder R} :
  PreOrder (on_snd (L := L) R).
Proof.
  split.
  - intros a. unfold on_snd. reflexivity.
  - intros a b c. unfold on_snd. apply transitivity.
Qed.

#[export] Instance quiet_preorder : PreOrder quiet.
Proof.
  split.
  - intros s. unfold quiet. done.
  - intros a b c (?&?&?&?) (?&?&?&?). unfold quiet. repeat split; congruence.
Qed.

Lemma written_app (evs1 evs2 : list Event) :
  written (evs1 ++ evs2) = (written evs1 + written evs2)%nat.
Proof. unfold written. by rewrite filter_app, length_app. Qed.

#[export] Instance counted_preorder : PreOrder counted.
Proof.
  split.
  - intros s. exists []. rewrite app_nil_r. split; [done|]. unfold written. simpl. lia.
  - intros a b c (e1 & Ht1 & Hc1) (e2 & Ht2 & Hc2). exists (e1 ++ e2). split.
    + rewrite Ht2, Ht1. by rewrite app_assoc.
    + rewrite written_app. lia.
Qed.

(** ** External calls, one by one *)

Lemma new_events_app (w w' : World) (evs : list Event) :
  trace w' = trace w ++ evs -> new_events w w' = evs.
Proof. intros H. unfold new_events. rewrite H. by rewrite drop_app_length. Qed.

Lemma quiet_lift_world {A} (m : M World A) :
  (forall w, captures (m w).2 = captures w) -> transits quiet (lift_world m).
Proof.
  intros H s. unfold lift_world. specialize (H (world s)).
  destruct (m (world s)) as [r w']. simpl in *. unfold quiet. simpl. done.
Qed.

Lemma counted_lift_world {A} (m : M World A) :
  (forall w, exists evs, trace (m w).2 = trace w ++ evs /\ written evs = 0%nat) ->
  transits counted (lift_world m).
Proof.
  intros H s. unfold lift_world. destruct (H (world s)) as (evs & Ht & Hw).
  destruct (m (world s)) as [r w']. simpl in *. exists evs. simpl.
  rewrite Hw. split; [done | lia].
Qed.

(** ** The detection logger *)

Ltac unfold_monad :=
  unfold bind, ret, raise, gets, get, modify, try_except, lift_world,
    lift_snd in *.

Lemma truncate_is_keep_last (l : list Json) :
  (if (1000 <? length l)%nat then JList (drop (length l - 1000) l) else JList l)
  = JList (keep_last 1000 l).
Proof.
  unfold keep_last. destruct (Nat.ltb_spec 1000 (length l)) as [H|H]; [done|].
  replace (length l - 1000)%nat with 0%nat by lia. done.
Qed.

Lemma log_detection_outcome (env : Env) (cn : string) (cf : float) (s : Sys) :
  exists s', log_detection env cn cf s = (Ret tt, s') /\
             log_outcome env (cn, cf) s s'.
Proof.
  destruct s as [[cam running cnt idx] [caps file tr]].
  set (s := mkSys (mkCM cam running cnt idx) (mkWorld caps file tr)).
  pose (lost := fun f evs H => log_lost env (cn, cf) s f evs H).
  pose (recorded := fun l ts evs Hl H => log_recorded env (cn, cf) s l ts evs Hl H).
  unfold log_detection, load_log, now, dump_log, py_append.
  unfold_monad. unfold now_tick, record_event. simpl.
  destruct file as [[|j]|]; simpl.
  - (* the file does not parse *)
    destruct (env_load_fails env (length tr));
      (eexists; split; [reflexivity|]; exact (lost _ [EvLoad false] eq_refl)).
  - destruct (env_load_fails env (length tr)) eqn:Hload; simpl.
    { eexists; split; [reflexivity|]. exact (lost _ [EvLoad false] eq_refl). }
    destruct j as [| | | | |l|]; simpl;
      try (eexists; split; [reflexivity|];
           rewrite <- app_assoc; exact (lost _ [EvLoad true; EvNow] eq_refl)).
    rewrite (truncate_is_keep_last (l ++ [_])).
    rewrite !length_app. simpl.
    destruct (env_dump env (length tr + 1 + 1)) eqn:Hdump; simpl;
      (eexists; split; [reflexivity|]); rewrite <- !app_assoc.
    + exact (recorded l _ [EvLoad true; EvNow; EvDump Written] eq_refl eq_refl).
    + exact (lost _ [EvLoad true; EvNow; EvDump WriteOpenFails] eq_refl).
    + exact (lost _ [EvLoad true; EvNow; EvDump WriteDumpFails] eq_refl).
  - rewrite !length_app. simpl.
    destruct (env_dump env (length tr + 1)) eqn:Hdump; simpl;
      (eexists; split; [reflexivity|]); rewrite <- ?app_assoc.
    + exact (recorded [] _ [EvNow; EvDump Written] eq_refl eq_refl).
    + exact (lost _ [EvNow; EvDump WriteOpenFails] eq_refl).
    + exact (lost _ [EvNow; EvDump WriteDumpFails] eq_refl).
Qed.

Lemma quiet_log_detection (env : Env) (cn : string) (cf : float) :
  transits quiet (log_detection env cn cf).
Proof.
  intros s. destruct (log_detection_outcome env cn cf s) as (s' & -> & Hout).
  simpl. destruct Hout; unfold quiet; simpl; done.
Qed.

Lemma counted_log_detection (env : Env) (cn : string) (cf : float) :
  transits counted (log_detection env cn cf).
Proof.
  intros s. destruct (log_detection_outcome env cn cf s) as (s' & -> & Hout).
  simpl. destruct Hout as [l ts evs _ Hw | file evs Hw]; exists evs; simpl;
    rewrite Hw; split; (done || lia).
Qed.


Lemma keep_last_short {A} (n : nat) (l : list A) :
  (length l <= n)%nat -> keep_last n l = l.
Proof.
  intros H. unfold keep_last. replace (length l - n)%nat with 0%nat by lia. done.
Qed.

Lemma keep_last_app_keep {A} (n : nat) (l b : list A) :
  keep_last n (keep_last n l ++ b) = keep_last n (l ++ b).
Proof.
  destruct (decide (length l <= n)%nat) as [H|H].
  - by rewrite (keep_last_short n l).
  - unfold keep_last. rewrite !length_app, length_drop.
    replace (length l - (length l - n) + length b - n)%nat with (length b) by lia.
    replace (length l + length b - n)%nat with ((length l - n) + length b)%nat by lia.
    rewrite <- drop_drop. by rewrite (drop_app_le l b) by lia.
Qed.

Lemma log_all_outcome (env : Env) (dets : list (string * float)) (s : Sys) :
  exists s' evs,
    log_all env dets s = (Ret tt, s') /\
    trace (world s') = trace (world s) ++ evs /\
    (written evs <= length dets)%nat /\
    current_camera_index (cm s') = current_camera_index (cm s) /\
    detection_count (cm s') = detection_count (cm s) + Z.of_nat (written evs) /\
    (written evs = length dets ->
     forall l0, file_list (world s) = Some l0 ->
       exists entries,
         Forall2 (is_entry_of env (current_camera_index (cm s))) dets entries /\
         match dets with
         | [] => file_list (world s') = Some l0
         | _ => log_file (world s') =
                  Some (Parsed (JList (keep_last 1000 (l0 ++ entries))))
         end).
Proof.
  revert s. induction dets as [|[cn cf] dets IH]; intros s.
  - exists s, []. rewrite app_nil_r. unfold written. simpl.
    repeat split; try done; try lia.
    intros _ l0 Hl0. exists []. split; [constructor | done].
  - unfold log_all in *. simpl. unfold bind at 1.
    destruct (log_detection_outcome env cn cf s) as (s1 & -> & Hout).
    destruct (IH s1) as (s' & evs' & Heq & Htr & Hle & Hidx & Hcnt & Hfile).
    clear IH. rewrite Heq. exists s'.
    destruct Hout as [l ts evs Hl Hw | file evs Hw]; simpl in *;
      exists (evs ++ evs'); rewrite written_app, Hw;
      (split; [done|]); (split; [by rewrite Htr, app_assoc|]);
      (split; [lia|]); (split; [done|]); (split; [lia|]).
    + intros Hall l0 Hl0. assert (l0 = l) as -> by congruence.
      destruct (Hfile ltac:(lia) _ eq_refl) as (entries & Hents & Hres).
      exists (log_entry env ts (current_camera_index (cm s)) (cn, cf) :: entries).
      split.
      * constructor; [by exists ts | done].
      * destruct dets as [|d dets].
        -- inversion Hents; subst. simpl in Heq. unfold ret in Heq.
           by inversion Heq.
        -- rewrite Hres. rewrite keep_last_app_keep. by rewrite <- app_assoc.
    + intros Hall. lia.
Qed.

(** ** The hot path: read, detect, log, encode *)

Section HotPath.
Context (R : relation Sys) `{!PreOrder R} (env : Env).
Hypothesis R_read : forall c, transits R (lift_world (cap_read env c)).
Hypothesis R_model : forall f, transits R (lift_world (model_call env f)).
Hypothesis R_encode : forall f, transits R (lift_world (imencode env f)).
Hypothesis R_log : forall cn cf, transits R (log_detection env cn cf).

Lemma transits_detect_box (box : Box) :
  transits (on_snd R) (detect_box env box).
Proof using R_log PreOrder0.
  unfold detect_box. destruct (xyxy box) as [[[x1 y1] x2] y2].
  apply transits_bind; [apply _ | | intros name].
  - destruct (env_names env (cls box)); [apply transits_ret | apply transits_raise];
      apply _.
  - apply transits_bind; [apply _ | | intros _].
    { apply transits_modify. intros [f s]. unfold on_snd, paint. simpl. reflexivity. }
    apply transits_bind; [apply _ | | intros _].
    { apply transits_modify. intros [f s]. unfold on_snd, paint. simpl. reflexivity. }
    apply transits_lift_snd. apply R_log.
Qed.

Lemma transits_detect_objects (frame : Frame) :
  transits R (detect_objects env frame).
Proof using R_log R_model PreOrder0.
  intros s. unfold detect_objects.
  match goal with
  | |- context [try_except ?b ?h] =>
      assert (transits (on_snd (L := Frame) R) (try_except b h)) as H
  end.
  { apply transits_try_except; [apply _ | | apply transits_ret; apply _].
    apply transits_bind; [apply _ | | intros results].
    - apply transits_lift_snd. apply R_model.
    - apply transits_for_each; [apply _|]. intros result.
      apply transits_for_each; [apply _|]. apply transits_detect_box. }
  specialize (H (frame, s)). unfold on_snd in H. simpl in H.
  destruct (try_except _ _ (frame, s)) as [r [f' s']]. exact H.
Qed.

Lemma transits_get_frame : transits R (get_frame env).
Proof using All.
  unfold get_frame. apply transits_bind; [done | apply transits_get; done |].
  intros s. destruct (is_running (cm s)), (camera (cm s)) as [c|];
    try (apply transits_ret; done).
  apply transits_try_except; [done | | apply transits_ret; done].
  apply transits_bind; [done | apply R_read |]. intros [f|]; [|apply transits_ret; done].
  apply transits_bind; [done | |].
  { destruct (YOLO_AVAILABLE env);
      [apply transits_detect_objects | apply transits_ret; done]. }
  intros f'. apply transits_bind; [done | apply R_encode |].
  intros [j|]; apply transits_ret; done.
Qed.
End HotPath.

Lemma cap_read_captures (env : Env) (c : VideoCapture) (w : World) :
  captures (cap_read env c w).2 = captures w /\
  exists o, trace (cap_read env c w).2 = trace w ++ [EvRead (cap_index c) o].
Proof.
  unfold cap_read.
  destruct (if isOpened c w then _ else _); simpl; split; eauto.
Qed.

Lemma model_call_captures (env : Env) (f : Frame) (w : World) :
  captures (model_call env f w).2 = captures w /\
  exists o, trace (model_call env f w).2 = trace w ++ [EvModel o].
Proof. unfold model_call. destruct (env_model env _ f); simpl; split; eauto. Qed.

Lemma imencode_captures (env : Env) (f : Frame) (w : World) :
  captures (imencode env f w).2 = captures w /\
  exists o, trace (imencode env f w).2 = trace w ++ [EvEncode o].
Proof. unfold imencode. destruct (env_encode env _ f); simpl; split; eauto. Qed.

Lemma quiet_detect_objects (env : Env) (f : Frame) :
  transits quiet (detect_objects env f).
Proof.
  apply transits_detect_objects; [apply _ | |].
  - intros f'. apply quiet_lift_world. intros w. apply model_call_captures.
  - intros cn cf. apply quiet_log_detection.
Qed.

Lemma counted_detect_objects (env : Env) (f : Frame) :
  transits counted (detect_objects env f).
Proof.
  apply transits_detect_objects; [apply _ | |].
  - intros f'. apply counted_lift_world. intros w.
    destruct (model_call_captures env f' w) as [_ [o Ho]]. by exists [EvModel o].
  - intros cn cf. apply counted_log_detection.
Qed.

Lemma quiet_get_frame (env : Env) : transits quiet (get_frame env).
Proof.
  apply transits_get_frame; [apply _ | | | |].
  - intros c. apply quiet_lift_world. intros w. apply cap_read_captures.
  - intros f'. apply quiet_lift_world. intros w. apply model_call_captures.
  - intros f'. apply quiet_lift_world. intros w. apply imencode_captures.
  - intros cn cf. apply quiet_log_detection.
Qed.

Lemma counted_get_frame (env : Env) : transits counted (get_frame env).
Proof.
  apply transits_get_frame; [apply _ | | | |].
  - intros c. apply counted_lift_world. intros w.
    destruct (cap_read_captures env c w) as [_ [o Ho]]. by exists [EvRead (cap_index c) o].
  - intros f'. apply counted_lift_world. intros w.
    destruct (model_call_captures env f' w) as [_ [o Ho]]. by exists [EvModel o].
  - intros f'. apply counted_lift_world. intros w.
    destruct (imencode_captures env f' w) as [_ [o Ho]]. by exists [EvEncode o].
  - intros cn cf. apply counted_log_detection.
Qed.

(** ** Start and stop *)

Lemma start_running (env : Env) (i : Z) (s : Sys) :
  is_running (cm s) = true ->
  start env i s = (Ret {| success := true; message := MsgAlreadyRunning |}, s).
Proof. intros H. unfold start. unfold_monad. by rewrite H. Qed.

(** What [start] does on a stopped session, by the outcome of the open. *)
Lemma start_stopped (env : Env) (i : Z) (s : Sys) :
  is_running (cm s) = false ->
  let w := world s in
  let o := env_open env (now_tick w) i in
  let c := mkCap (length (captures w)) i in
  let session cam running index :=
    {| camera := cam; is_running := running;
       detection_count := detection_count (cm s);
       current_camera_index := index |} in
  start env i s =
    match o with
    | Opened =>
        (Ret {| success := true; message := MsgStarted i |},
         {| cm := session (Some c) true i;
            world := {| captures := captures w ++ [true]; log_file := log_file w;
                        trace := trace w ++ [EvOpen i o] |} |})
    | NotOpened =>
        (Ret {| success := false; message := MsgConnectFailed i |},
         {| cm := session (Some c) false (current_camera_index (cm s));
            world := {| captures := captures w ++ [false]; log_file := log_file w;
                        trace := trace w ++ [EvOpen i o] |} |})
    | OpenRaises =>
        (Raise CvError,
         {| cm := cm s;
            world := {| captures := captures w; log_file := log_file w;
                        trace := trace w ++ [EvOpen i o] |} |})
    end.
Proof.
  intros H. destruct s as [[cam running cnt idx] [caps file tr]]. simpl in *. subst.
  unfold start, VideoCapture_new, isOpened, set_camera, set_is_running,
    set_current_camera_index.
  unfold_monad. unfold now_tick, record_event. simpl.
  destruct (env_open env (length tr) i); simpl; try done.
  - by rewrite list_lookup_middle.
  - by rewrite list_lookup_middle.
Qed.

Lemma stop_stopped (s : Sys) :
  is_running (cm s) = false ->
  stop s = (Ret {| success := true; message := MsgAlreadyStopped |}, s).
Proof. intros H. unfold stop. unfold_monad. by rewrite H. Qed.

Lemma stop_running (s : Sys) :
  is_running (cm s) = true ->
  exists s', stop s = (Ret {| success := true; message := MsgStopped |}, s') /\
    is_running (cm s') = false /\ camera (cm s') = None /\
    current_camera_index (cm s') = current_camera_index (cm s) /\
    detection_count (cm s') = detection_count (cm s) /\
    log_file (world s') = log_file (world s) /\
    exists evs, trace (world s') = trace (world s) ++ evs /\ written evs = 0%nat.
Proof.
  intros H. destruct s as [[cam running cnt idx] [caps file tr]]. simpl in *. subst.
  unfold stop, cap_release, set_camera, set_is_running.
  unfold_monad. unfold record_event. simpl.
  destruct cam as [c|]; simpl; eexists; (split; [reflexivity|]); simpl;
    repeat split; try done.
  - by exists [EvRelease (cap_index c)].
  - exists []. by rewrite app_nil_r.
Qed.

Lemma counted_start (env : Env) (i : Z) : transits counted (start env i).
Proof.
  intros s. destruct (is_running (cm s)) eqn:Hrun.
  - rewrite start_running by done. simpl. reflexivity.
  - rewrite start_stopped by done.
    destruct (env_open env _ i); simpl; eexists [_]; simpl; (split; [done|]);
      unfold written; simpl; lia.
Qed.

Lemma counted_stop : transits counted stop.
Proof.
  intros s. destruct (is_running (cm s)) eqn:Hrun.
  - destruct (stop_running s Hrun) as (s' & -> & _ & _ & _ & Hc & _ & evs & Ht & Hw).
    simpl. exists evs. rewrite Hw. split; [done | lia].
  - rewrite stop_stopped by done. simpl. reflexivity.
Qed.

Lemma counted_exec (env : Env) (op : Op) (s : Sys) : counted s (exec env op s).
Proof.
  destruct op; simpl.
  - apply counted_start.
  - apply counted_stop.
  - apply counted_get_frame.
  - reflexivity.
Qed.

Lemma counted_exec_all (env : Env) (ops : list Op) (s : Sys) :
  counted s (exec_all env ops s).
Proof.
  revert s. induction ops as [|op ops IH]; intros s.
  - reflexivity.
  - etransitivity; [apply counted_exec | apply IH].
Qed.

(** ** The claims about start, stop and the status *)

(** C4: for every index [i], [start(i)] on a RUNNING session returns
    success and leaves the whole process as it was: the stored capture and
    the recorded index are unchanged, no capture object is created and no
    external call is made, whatever [i] is. *)
Theorem start_while_running_is_noop (env : Env) (i : Z) (s : Sys) :
  is_running (cm s) = true ->
  exists r, start env i s = (Ret r, s) /\ success r = true /\
    camera (cm (start env i s).2) = camera (cm s) /\
    current_camera_index (cm (start env i s).2) = current_camera_index (cm s) /\
    captures (world (start env i s).2) = captures (world s) /\
    new_events (world s) (world (start env i s).2) = [].
Proof.
  intros H. rewrite (start_running env i s H). simpl.
  eexists. repeat split. unfold new_events. by rewrite drop_all.
Qed.

Lemma start_while_running_is_noop_witness :
  is_running (cm running_on_1) = true /\
  exists r, start env_fine 2 running_on_1 = (Ret r, running_on_1) /\
    success r = true /\
    camera (cm (start env_fine 2 running_on_1).2) = camera (cm running_on_1) /\
    current_camera_index (cm (start env_fine 2 running_on_1).2) = 1 /\
    captures (world (start env_fine 2 running_on_1).2) = captures (world running_on_1) /\
    new_events (world running_on_1) (world (start env_fine 2 running_on_1).2) = [].
Proof.
  split; [reflexivity|].
  exact (start_while_running_is_noop env_fine 2 running_on_1 eq_refl).
Defined.

Lemma index_after_exec (env : Env) (op : Op) (s : Sys) :
  current_camera_index (cm (exec env op s)) =
    match op with
    | OpStart index =>
        if switched_on (start env index s).1 then index
        else current_camera_index (cm s)
    | _ => current_camera_index (cm s)
    end.
Proof.
  destruct op as [i| | |]; simpl.
  - destruct (is_running (cm s)) eqn:Hrun.
    + by rewrite start_running.
    + rewrite start_stopped by done. by destruct (env_open env _ i).
  - destruct (is_running (cm s)) eqn:Hrun.
    + destruct (stop_running s Hrun) as (s' & Heq & _ & _ & Hidx & _).
      by rewrite Heq.
    + by rewrite stop_stopped.
  - apply (quiet_get_frame env s).
  - done.
Qed.

Lemma exec_all_cons (env : Env) (op : Op) (ops : list Op) (s : Sys) :
  exec_all env (op :: ops) s = exec_all env ops (exec env op s).
Proof. reflexivity. Qed.

Lemma exec_all_snoc (env : Env) (op : Op) (ops : list Op) (s : Sys) :
  exec_all env (ops ++ [op]) s = exec env op (exec_all env ops s).
Proof. unfold exec_all. by rewrite foldl_app. Qed.

Lemma index_after_exec_all (env : Env) (ops : list Op) (s : Sys) :
  current_camera_index (cm (exec_all env ops s)) =
  last_started env ops s (current_camera_index (cm s)).
Proof.
  revert s. induction ops as [|op ops IH]; intros s; [done|].
  rewrite exec_all_cons, IH. simpl. f_equal. rewrite index_after_exec.
  by destruct op.
Qed.

Lemma last_started_snoc_stop (env : Env) (ops : list Op) (s : Sys) (last : Z) :
  last_started env (ops ++ [OpStop]) s last = last_started env ops s last.
Proof.
  revert s last. induction ops as [|op ops IH]; intros s last; simpl; [done|].
  apply IH.
Qed.

Lemma stop_not_running (s : Sys) : is_running (cm (stop s).2) = false.
Proof.
  destruct (is_running (cm s)) eqn:Hrun.
  - destruct (stop_running s Hrun) as (s' & Heq & Hoff & _). by rewrite Heq.
  - by rewrite stop_stopped.
Qed.

(** C10, amended: the recorded index starts at 0; [stop], a failed
    [start] and in fact every call other than a [start] that opens the
    device and switches the session on, the [start] on a RUNNING session
    included, leave it alone, and such a [start(i)] sets it to [i].  So after any calls [get_status] reports the index of the last
    start that switched the session on (0 if there was none), also right
    after a [stop], when [camera_on] is false. *)
Theorem current_index_is_last_started (env : Env) :
  current_camera_index CameraManager_init = 0 /\
  (forall s, current_camera_index (cm (stop s).2) = current_camera_index (cm s)) /\
  (forall i s r, (start env i s).1 = Ret r -> success r = false ->
     current_camera_index (cm (start env i s).2) = current_camera_index (cm s)) /\
  (forall i s, current_camera_index (cm (start env i s).2) =
     if switched_on (start env i s).1 then i else current_camera_index (cm s)) /\
  (forall ops w,
     let s := exec_all env ops (boot w) in
     get_status env s =
       (Ret {| st_camera_on := is_running (cm s);
               st_current_idx := last_started env ops (boot w) 0;
               st_yolo_available := YOLO_AVAILABLE env;
               st_detection_count := detection_count (cm s) |}, s)) /\
  (forall ops w,
     let s := exec_all env (ops ++ [OpStop]) (boot w) in
     exists st, get_status env s = (Ret st, s) /\
       st_camera_on st = false /\
       st_current_idx st = last_started env ops (boot w) 0).
Proof.
  split; [done|]. split; [|split; [|split; [|split]]].
  - intros s. apply (index_after_exec env OpStop).
  - intros i s r Hr Hfail.
    pose proof (index_after_exec env (OpStart i) s) as H. simpl in H.
    rewrite H, Hr. destruct r as [[] m]; simpl in *; done.
  - intros i s. apply (index_after_exec env (OpStart i)).
  - intros ops w s. unfold get_status. unfold_monad. simpl.
    subst s. by rewrite index_after_exec_all.
  - intros ops w s. eexists. split; [reflexivity|]. simpl. subst s. split.
    + rewrite exec_all_snoc. apply stop_not_running.
    + rewrite index_after_exec_all. simpl. apply last_started_snoc_stop.
Qed.

Lemma current_index_is_last_started_witness :
  (start env_no_device 3 running_on_1).1 =
    Ret {| success := true; message := MsgAlreadyRunning |} /\
  (start env_no_device 3 (stop running_on_1).2).1 =
    Ret {| success := false; message := MsgConnectFailed 3 |} /\
  current_camera_index (cm (start env_no_device 3 (stop running_on_1).2).2) = 1.
Proof.
  split; [reflexivity|]. split; [reflexivity|].
  exact (proj1 (proj2 (proj2 (current_index_is_last_started env_no_device)))
           3 (stop running_on_1).2 _ eq_refl eq_refl).
Defined.

(** C10 with "successful start" read by the answer fails: [start(2)] on
    the session that [start(1)] switched on answers success and leaves the
    index alone, so after [start(1); start(2); stop()] the status reports
    index 1 while the last start that answered success was [start(2)]. *)
Lemma start_on_running_session_keeps_index :
  ~ status_reports_last_successful_start.
Proof.
  intros H.
  specialize (H env_fine [OpStart 1; OpStart 2] fresh_world _ eq_refl).
  vm_compute in H. discriminate H.
Qed.

(** The run behind it, call by call. *)
Example second_start_answers_success :
  (start env_fine 2 running_on_1).1
    = Ret {| success := true; message := MsgAlreadyRunning |} /\
  (get_status env_fine
     (exec_all env_fine [OpStart 1; OpStart 2; OpStop] (boot fresh_world))).1
    = Ret {| st_camera_on := false; st_current_idx := 1;
             st_yolo_available := true; st_detection_count := 0 |} /\
  last_successful env_fine [OpStart 1; OpStart 2] (boot fresh_world) 0 = 2 /\
  last_started env_fine [OpStart 1; OpStart 2] (boot fresh_world) 0 = 1.
Proof. repeat split. Qed.

(** ** The claims about the detection log and the counter *)






(** A log that holds 1000 records loses its oldest one to the next
    detection. *)
Example full_log_drops_its_oldest_record :
  file_list (world (log_detection env_fine "person" half (boot world_full_log)).2)
  = Some (replicate 999 (JInt 0)
          ++ [log_entry env_fine "2024-01-01 00:00:00" 0 ("person"%string, half)]).
Proof. reflexivity. Qed.

(** C8: no call on the manager ever lowers the detection counter; at any
    time it equals the number of detections written to the log since the
    process started, and after N detections have been logged in a row in a
    new process [get_status] reports [detection_count] N. *)
Theorem detection_count_counts_logged (env : Env) :
  (forall op s, detection_count (cm s) <= detection_count (cm (exec env op s))) /\
  (forall cn cf s,
     detection_count (cm s) <= detection_count (cm (log_detection env cn cf s).2)) /\
  (forall ops w,
     let s := exec_all env ops (boot w) in
     exists st, get_status env s = (Ret st, s) /\
       st_detection_count st = Z.of_nat (written (new_events w (world s)))) /\
  (forall dets w,
     let s := (log_all env dets (boot w)).2 in
     written (new_events w (world s)) = length dets ->
     exists st, get_status env s = (Ret st, s) /\
       st_detection_count st = Z.of_nat (length dets)).
Proof.
  split; [|split; [|split]].
  - intros op s. destruct (counted_exec env op s) as (evs & _ & ->). lia.
  - intros cn cf s. destruct (counted_log_detection env cn cf s) as (evs & _ & ->). lia.
  - intros ops w s. eexists. split; [reflexivity|]. simpl. subst s.
    destruct (counted_exec_all env ops (boot w)) as (evs & Htr & ->).
    rewrite (new_events_app _ _ evs) by done. simpl. lia.
  - intros dets w s Hw. eexists. split; [reflexivity|]. simpl. subst s.
    destruct (log_all_outcome env dets (boot w))
      as (s' & evs & Heq & Htr & _ & _ & Hcnt & _).
    rewrite Heq in *. simpl in *. rewrite (new_events_app _ _ evs) in Hw by done.
    rewrite Hcnt, Hw. lia.
Qed.

Lemma detection_count_counts_logged_witness :
  written (new_events fresh_world
             (world (log_all env_fine two_detections (boot fresh_world)).2)) = 2%nat /\
  exists st,
    get_status env_fine (log_all env_fine two_detections (boot fresh_world)).2 =
      (Ret st, (log_all env_fine two_detections (boot fresh_world)).2) /\
    st_detection_count st = 2.
Proof.
  split; [reflexivity|].
  exact (proj2 (proj2 (proj2 (detection_count_counts_logged env_fine)))
           two_detections fresh_world eq_refl).
Defined.

(** ** The handle and the running flag *)

Lemma isOpened_ext (c : VideoCapture) (w w' : World) :
  captures w' = captures w -> isOpened c w' = isOpened c w.
Proof. intros H. unfold isOpened. by rewrite H. Qed.

Lemma running_iff_open_exec (env : Env) (op : Op) (s : Sys) :
  (is_running (cm s) = true <-> holds_open_capture s) ->
  (is_running (cm (exec env op s)) = true <-> holds_open_capture (exec env op s)).
Proof.
  intros Inv. unfold holds_open_capture in *. destruct op as [i| | |]; simpl.
  - destruct (is_running (cm s)) eqn:Hrun.
    + rewrite start_running by done. simpl. by rewrite Hrun.
    + rewrite start_stopped by done. destruct (env_open env _ i); simpl.
      * split; [intros _|done]. eexists. split; [done|].
        unfold isOpened. simpl. by rewrite list_lookup_middle.
      * split; [done|]. intros (c & [= <-] & Hopen).
        unfold isOpened in Hopen. simpl in Hopen.
        by rewrite list_lookup_middle in Hopen.
      * rewrite Hrun. done.
  - destruct (is_running (cm s)) eqn:Hrun.
    + destruct (stop_running s Hrun) as (s' & Heq & Hoff & Hcam & _).
      rewrite Heq. simpl. rewrite Hoff, Hcam. split; [done|]. by intros (c & ? & _).
    + rewrite stop_stopped by done. simpl. by rewrite Hrun.
  - destruct (quiet_get_frame env s) as (Hcam & Hrun & _ & Hcaps).
    rewrite Hcam, Hrun. rewrite Inv.
    split; intros (c & ? & Hopen); exists c; (split; [done|]);
      [rewrite <- Hopen | rewrite <- Hopen; symmetry]; by apply isOpened_ext.
  - done.
Qed.

(** What does hold of the handle on every run: the session is RUNNING
    exactly when the [camera] field holds a capture that is open. *)
Lemma running_iff_open_capture (env : Env) (ops : list Op) (w : World) :
  is_running (cm (exec_all env ops (boot w))) = true <->
  holds_open_capture (exec_all env ops (boot w)).
Proof.
  induction ops as [|op ops IH] using rev_ind.
  - simpl. split; [done|]. by intros (c & ? & _).
  - rewrite exec_all_snoc. by apply running_iff_open_exec.
Qed.

(** C1, at the failing input: in a new process, [start(0)] on a device that
    does not open reports the failure and leaves the session STOPPED, and
    the [camera] field keeps the capture object that failed to open: it
    is not [None]. *)
Theorem failed_start_keeps_capture_object :
  start env_no_device 0 (boot fresh_world) =
    (Ret {| success := false; message := MsgConnectFailed 0 |},
     {| cm := {| camera := Some (mkCap 0 0); is_running := false;
                 detection_count := 0; current_camera_index := 0 |};
        world := {| captures := [false]; log_file := None;
                    trace := [EvOpen 0 NotOpened] |} |}) /\
  is_running (cm (exec env_no_device (OpStart 0) (boot fresh_world))) = false /\
  camera (cm (exec env_no_device (OpStart 0) (boot fresh_world))) <> None.
Proof. repeat split. discriminate. Qed.

(** ** The control endpoint *)

(** An action that is a string other than "on" and "off", in any case of
    the letters, is answered with the structured failure. *)
Lemma control_unknown_action (env : Env) (kvs : list (string * Json)) (a : string)
    (s : Sys) :
  dict_lookup "action" kvs = Some (JStr a) ->
  lower a <> "on" -> lower a <> "off" ->
  control env (Body (JDict kvs)) s =
    (Ret {| success := false; message := MsgBadRequest |}, s).
Proof.
  intros Hget Hon Hoff. unfold control, get_json, py_get, py_lower. unfold_monad.
  rewrite Hget. simpl.
  destruct (String.eqb_spec (lower a) "on"); [done|].
  destruct (String.eqb_spec (lower a) "off"); [done|]. done.
Qed.

(** C9, at the failing inputs: for the body [{"action": 1}], whose action
    is neither "on" nor "off", [control] raises [AttributeError] and
    answers with no [Response] at all; for a body that does not parse it
    raises [BadRequest]. *)
Theorem control_raises_on_malformed_request (env : Env) (s : Sys) :
  control env request_action_1 s = (Raise AttributeError, s) /\
  control env Malformed s = (Raise BadRequest, s).
Proof. split; reflexivity. Qed.

(** ** The detector and the frame pipeline *)

Lemma detect_objects_model_raises (env : Env) (frame : Frame) (s : Sys) :
  env_model env (now_tick (world s)) frame = ModelRaises ->
  detect_objects env frame s =
    (Ret frame,
     {| cm := cm s; world := record_event (EvModel ModelRaises) (world s) |}).
Proof.
  intros H. unfold detect_objects, model_call. unfold_monad. simpl. by rewrite H.
Qed.

Lemma detect_objects_returns (env : Env) (frame : Frame) (s : Sys) :
  exists frame', (detect_objects env frame s).1 = Ret frame'.
Proof.
  unfold detect_objects. destruct (try_except _ _ (frame, s)) as [r [f' s']].
  by exists f'.
Qed.

(** What [get_frame] does on a RUNNING session, stage by stage. *)
Lemma get_frame_running (env : Env) (s : Sys) (c : VideoCapture) :
  is_running (cm s) = true -> camera (cm s) = Some c ->
  let detected f s1 :=
    if YOLO_AVAILABLE env then detect_objects env f s1 else (Ret f, s1) in
  get_frame env s =
    match cap_read env c (world s) with
    | (Ret (Some f), w1) =>
        match detected f {| cm := cm s; world := w1 |} with
        | (Ret f', s2) =>
            match imencode env f' (world s2) with
            | (Ret (Some jpeg), w3) => (Ret (Some jpeg), {| cm := cm s2; world := w3 |})
            | (_, w3) => (Ret None, {| cm := cm s2; world := w3 |})
            end
        | (Raise _, s2) => (Ret None, s2)
        end
    | (_, w1) => (Ret None, {| cm := cm s; world := w1 |})
    end.
Proof.
  intros Hrun Hcam. unfold get_frame. unfold_monad. rewrite Hrun, Hcam.
  destruct (cap_read env c (world s)) as [[[f|]|e] w1]; try done.
  simpl. destruct (YOLO_AVAILABLE env); simpl.
  - destruct (detect_objects env f _) as [[f'|e] s2]; [|done].
    by destruct (imencode env f' (world s2)) as [[[j|]|e] w3].
  - by destruct (imencode env f _) as [[[j|]|e] w3].
Qed.

Lemma get_frame_stopped (env : Env) (s : Sys) :
  is_running (cm s) = false -> get_frame env s = (Ret None, s).
Proof. intros H. unfold get_frame. unfold_monad. by rewrite H. Qed.

Lemma get_frame_no_camera (env : Env) (s : Sys) :
  camera (cm s) = None -> get_frame env s = (Ret None, s).
Proof.
  intros H. unfold get_frame. unfold_monad. rewrite H.
  by destruct (is_running (cm s)).
Qed.

Lemma get_frame_model_raises (env : Env) (s : Sys) (c : VideoCapture) (f : Frame) :
  let t := now_tick (world s) in
  is_running (cm s) = true -> camera (cm s) = Some c ->
  isOpened c (world s) = true ->
  env_read env t (cap_index c) = ReadFrame f ->
  YOLO_AVAILABLE env = true ->
  env_model env (t + 1) f = ModelRaises ->
  get_frame env s =
    (Ret match env_encode env (t + 2) f with
         | Encoded jpeg => Some jpeg
         | _ => None
         end,
     {| cm := cm s;
        world := {| captures := captures (world s); log_file := log_file (world s);
                    trace := trace (world s) ++
                      [EvRead (cap_index c) (ReadFrame f); EvModel ModelRaises;
                       EvEncode (env_encode env (t + 2) f)] |} |}).
Proof.
  intros t Hrun Hcam Hopen Hread Hyolo Hmodel. subst t.
  rewrite (get_frame_running env s c) by done.
  unfold cap_read. rewrite Hopen, Hread, Hyolo. simpl.
  rewrite detect_objects_model_raises; last first.
  { unfold now_tick, record_event. simpl. by rewrite length_app. }
  unfold imencode, now_tick, record_event. simpl. rewrite !length_app. simpl.
  replace (length (trace (world s)) + 1 + 1)%nat
    with (length (trace (world s)) + 2)%nat by lia.
  rewrite <- !app_assoc. simpl.
  by destruct (env_encode env _ f).
Qed.

(** C5: when the model raises on a frame, [detect_objects] returns that
    very frame, nothing painted on it; the only external call made is the
    call of the model, so no detection is logged and the counter and the
    log file are as before.  Nothing is raised to [get_frame], which goes
    on to encode the frame as it was read. *)
Theorem detector_failure_passes_frame_through (env : Env) :
  (forall frame s,
     env_model env (now_tick (world s)) frame = ModelRaises ->
     detect_objects env frame s =
       (Ret frame,
        {| cm := cm s;
           world := {| captures := captures (world s);
                       log_file := log_file (world s);
                       trace := trace (world s) ++ [EvModel ModelRaises] |} |})) /\
  (forall s c f,
     is_running (cm s) = true -> camera (cm s) = Some c ->
     isOpened c (world s) = true ->
     env_read env (now_tick (world s)) (cap_index c) = ReadFrame f ->
     YOLO_AVAILABLE env = true ->
     env_model env (now_tick (world s) + 1) f = ModelRaises ->
     (get_frame env s).1 =
       Ret match env_encode env (now_tick (world s) + 2) f with
           | Encoded jpeg => Some jpeg
           | _ => None
           end).
Proof.
  split.
  - intros frame s H. by rewrite detect_objects_model_raises.
  - intros s c f Hrun Hcam Hopen Hread Hyolo Hmodel.
    by rewrite (get_frame_model_raises env s c f).
Qed.

Lemma detector_failure_passes_frame_through_witness :
  env_model env_model_broken (now_tick (world running_on_1)) (sample_frame 7)
    = ModelRaises /\
  detect_objects env_model_broken (sample_frame 7) running_on_1 =
    (Ret (sample_frame 7),
     {| cm := cm running_on_1;
        world := {| captures := captures (world running_on_1);
                    log_file := log_file (world running_on_1);
                    trace := trace (world running_on_1) ++ [EvModel ModelRaises] |} |}).
Proof.
  split; [reflexivity|].
  exact (proj1 (detector_failure_passes_frame_through env_model_broken)
           (sample_frame 7) running_on_1 eq_refl).
Defined.

Lemma cap_read_cases (env : Env) (c : VideoCapture) (w : World) :
  (exists f, cap_read env c w =
     (Ret (Some f), record_event (EvRead (cap_index c) (ReadFrame f)) w)) \/
  cap_read env c w = (Ret None, record_event (EvRead (cap_index c) ReadNothing) w) \/
  cap_read env c w = (Raise CvError, record_event (EvRead (cap_index c) ReadRaises) w).
Proof.
  unfold cap_read. destruct (if isOpened c w then _ else _) as [f| |]; eauto.
Qed.

Lemma imencode_cases (env : Env) (f : Frame) (w : World) :
  (exists j, imencode env f w = (Ret (Some j), record_event (EvEncode (Encoded j)) w)) \/
  (exists r o, imencode env f w = (r, record_event (EvEncode o) w) /\
     (forall j, r <> Ret (Some j)) /\
     (forall j, o <> Encoded j)).
Proof.
  unfold imencode. destruct (env_encode env _ f) as [j| |]; [by eauto| |];
    right; eexists _, _; (split; [reflexivity|]); repeat split; done.
Qed.


Ltac frame_goal :=
  simpl in *;
  match goal with
  | Hq : quiet _ _, Hm : forall c f r, _ |- _ =>
      split; [done|]; split; [exact Hq|]; split; [done|];
      split; [|by intros; eapply Hm]
  end.

(** What a call of [get_frame] leaves behind and what its own calls say
    about the frame it returns. *)
Lemma get_frame_outcome (env : Env) (s : Sys) :
  exists r, (get_frame env s).1 = Ret r /\
    quiet s (get_frame env s).2 /\
    (is_running (cm s) = false -> r = None /\ (get_frame env s).2 = s) /\
    (forall jpeg, r = Some jpeg <->
       exists i f evs,
         new_events (world s) (world (get_frame env s).2) =
           EvRead i (ReadFrame f) :: evs ++ [EvEncode (Encoded jpeg)]) /\
    (forall c f,
       is_running (cm s) = true -> camera (cm s) = Some c ->
       isOpened c (world s) = true ->
       env_read env (now_tick (world s)) (cap_index c) = ReadFrame f ->
       YOLO_AVAILABLE env = true ->
       env_model env (now_tick (world s) + 1) f = ModelRaises ->
       r = match env_encode env (now_tick (world s) + 2) f with
           | Encoded jpeg => Some jpeg
           | _ => None
           end).
Proof.
  pose proof (quiet_get_frame env s) as Hquiet.
  assert (forall c f (r : option Jpeg),
       (get_frame env s).1 = Ret r ->
       is_running (cm s) = true -> camera (cm s) = Some c ->
       isOpened c (world s) = true ->
       env_read env (now_tick (world s)) (cap_index c) = ReadFrame f ->
       YOLO_AVAILABLE env = true ->
       env_model env (now_tick (world s) + 1) f = ModelRaises ->
       r = match env_encode env (now_tick (world s) + 2) f with
           | Encoded jpeg => Some jpeg
           | _ => None
           end) as Hmodel.
  { intros c f r Hr Hrun Hcam Hopen Hread Hyolo Hm.
    rewrite (get_frame_model_raises env s c f) in Hr by done. simpl in Hr. congruence. }
  assert (forall i f evs j,
            new_events (world s) (world s) <>
              EvRead i (ReadFrame f) :: evs ++ [EvEncode (Encoded j)]) as Hnone.
  { intros i f evs j Hnew. unfold new_events in Hnew. by rewrite drop_all in Hnew. }
  destruct (is_running (cm s)) eqn:Hrun; last first.
  { rewrite get_frame_stopped in * by done. exists None. frame_goal.
    split; [done|]. intros (i & f & evs & Hnew). by destruct (Hnone i f evs jpeg). }
  destruct (camera (cm s)) as [c|] eqn:Hcam; last first.
  { rewrite get_frame_no_camera in * by done. exists None. frame_goal.
    split; [done|]. intros (i & f & evs & Hnew). by destruct (Hnone i f evs jpeg). }
  clear Hnone.
  rewrite (get_frame_running env s c) in * by done.
  destruct (cap_read_cases env c (world s)) as [[f Hread] | [Hread | Hread]];
    rewrite Hread in *; clear Hread.
  - (* the read delivered a frame *)
    set (s1 := {| cm := cm s; world := record_event _ (world s) |}) in *.
    assert (exists f' s2 evs,
              (if YOLO_AVAILABLE env then detect_objects env f s1 else (Ret f, s1))
                = (Ret f', s2) /\
              trace (world s2) = trace (world s1) ++ evs) as (f' & s2 & evs & Hdet & Htr).
    { destruct (YOLO_AVAILABLE env).
      - destruct (detect_objects_returns env f s1) as (f' & Hf').
        destruct (counted_detect_objects env f s1) as (evs & Htr & _).
        destruct (detect_objects env f s1) as [r s2]. simpl in *. subst r.
        by exists f', s2, evs.
      - exists f, s1, []. by rewrite app_nil_r. }
    rewrite Hdet in *. simpl in Htr.
    destruct (imencode_cases env f' (world s2)) as [[j Henc] | (r & o & Henc & Hr2 & Ho)];
      rewrite Henc in *; clear Henc.
    + exists (Some j). frame_goal. split.
      * intros [= <-]. exists (cap_index c), f, evs.
        apply new_events_app. simpl. rewrite Htr. by rewrite <- !app_assoc.
      * intros (i & f0 & evs0 & Hnew).
        erewrite new_events_app in Hnew; last first.
        { simpl. rewrite Htr. rewrite <- !app_assoc. reflexivity. }
        simpl in Hnew. injection Hnew as _ _ Hnew.
        apply app_inj_tail in Hnew as [_ Hnew]. congruence.
    + exists None.
      assert ((let (r0, w3) := (r, record_event (EvEncode o) (world s2)) in
               match r0 with
               | Ret (Some jpeg) => (Ret (Some jpeg), {| cm := cm s2; world := w3 |})
               | _ => (Ret None, {| cm := cm s2; world := w3 |})
               end) = (Ret None, {| cm := cm s2;
                                    world := record_event (EvEncode o) (world s2) |}))
        as Hres.
      { destruct r as [[j|]|e]; try done. by destruct (Hr2 j). }
      simpl in Hres. simpl. rewrite Hres in *. frame_goal.
      split; [done|]. intros (i & f0 & evs0 & Hnew).
      erewrite new_events_app in Hnew; last first.
      { simpl. rewrite Htr. rewrite <- !app_assoc. reflexivity. }
      simpl in Hnew. injection Hnew as _ _ Hnew.
      apply app_inj_tail in Hnew as [_ Hnew]. injection Hnew as ->. by destruct (Ho jpeg).
  - exists None. frame_goal. split; [done|].
    intros (i & f0 & evs0 & Hnew).
    erewrite new_events_app in Hnew; [|reflexivity]. done.
  - exists None. frame_goal. split; [done|].
    intros (i & f0 & evs0 & Hnew).
    erewrite new_events_app in Hnew; [|reflexivity]. done.
Qed.

(** ** The device registry *)

Lemma existsb_other_index (p : Z -> Event -> bool) (i : Z) (evs : list Event) :
  (forall e, p i e = true -> event_index e = Some i) ->
  Forall (fun e => event_index e <> Some i) evs ->
  existsb (p i) evs = false.
Proof.
  intros Hp Hevs. induction Hevs as [|e evs He _ IH]; simpl; [done|].
  rewrite IH, orb_false_r. destruct (p i e) eqn:Hpe; [|done].
  by destruct He, (Hp e).
Qed.

Lemma opened_ok_index (i : Z) (e : Event) :
  opened_ok i e = true -> event_index e = Some i.
Proof.
  destruct e as [j []| | | | | | |]; simpl; try done.
  intros H. apply bool_decide_eq_true in H. by subst.
Qed.

Lemma read_ok_index (i : Z) (e : Event) :
  read_ok i e = true -> event_index e = Some i.
Proof.
  destruct e as [|j []| | | | | |]; simpl; try done.
  intros H. apply bool_decide_eq_true in H. by subst.
Qed.

Lemma probed_ok_app_l (evs1 evs2 : list Event) (i : Z) :
  Forall (fun e => event_index e <> Some i) evs2 ->
  probed_ok (evs1 ++ evs2) i = probed_ok evs1 i.
Proof.
  intros H. unfold probed_ok. rewrite !existsb_app.
  rewrite (existsb_other_index opened_ok i evs2 (opened_ok_index i) H).
  rewrite (existsb_other_index read_ok i evs2 (read_ok_index i) H).
  by rewrite !orb_false_r.
Qed.

Lemma probed_ok_app_r (evs1 evs2 : list Event) (i : Z) :
  Forall (fun e => event_index e <> Some i) evs1 ->
  probed_ok (evs1 ++ evs2) i = probed_ok evs2 i.
Proof.
  intros H. unfold probed_ok. rewrite !existsb_app.
  rewrite (existsb_other_index opened_ok i evs1 (opened_ok_index i) H).
  by rewrite (existsb_other_index read_ok i evs1 (read_ok_index i) H).
Qed.

Lemma probed_ok_probe_calls (env : Env) (t : nat) (i : Z) :
  probed_ok (probe_calls env t i) i = probe_finds env t i.
Proof.
  unfold probed_ok, probe_calls, probe_finds.
  destruct (env_open env t i); simpl; try done.
  rewrite bool_decide_eq_true_2 by done. simpl.
  destruct (env_read env (S t) i); simpl; try done.
  by rewrite bool_decide_eq_true_2.
Qed.

Lemma probe_calls_index (env : Env) (t : nat) (i : Z) :
  Forall (fun e => event_index e = Some i) (probe_calls env t i) /\
  exists o, EvOpen i o ∈ probe_calls env t i.
Proof.
  unfold probe_calls.
  destruct (env_open env t i); [destruct (env_read env (S t) i)| |];
    (split; [by repeat constructor | eexists; left]).
Qed.

Lemma scan_inv_rebind (caps0 caps : list bool) (keep : option VideoCapture)
    (b : bool) (i : Z) :
  scan_inv caps0 keep caps ->
  scan_inv caps0 (Some (mkCap (length caps) i))
    match keep with
    | Some old => <[cap_id old := false]> (caps ++ [b])
    | None => caps ++ [b]
    end.
Proof.
  intros (Htake & Hlen & Hid & Hopen). unfold scan_inv.
  assert (forall j, (length caps0 <= j)%nat -> (caps ++ [b]) !! j = Some true ->
            j <> length caps -> exists o, keep = Some o /\ cap_id o = j) as Hold.
  { intros j Hj Hlook Hne. apply Hopen; [done|].
    destruct (decide (j < length caps)%nat) as [Hlt|Hge].
    - by rewrite lookup_app_l in Hlook.
    - apply lookup_lt_Some in Hlook. rewrite length_app in Hlook. simpl in Hlook.
      lia. }
  destruct keep as [old|].
  - destruct (Hid old eq_refl) as [Hlo Hhi].
    rewrite take_insert_ge, take_app_le, length_insert, length_app by lia. simpl.
    split; [done|]. split; [lia|]. split.
    + intros o [= <-]. simpl. lia.
    + intros j Hj Hlook. exists (mkCap (length caps) i). split; [done|]. simpl.
      destruct (decide (j = length caps)) as [->|Hne]; [done|]. exfalso.
      destruct (decide (j = cap_id old)) as [->|Hne'].
      * rewrite list_lookup_insert_eq in Hlook; [done|].
        rewrite length_app. simpl. lia.
      * rewrite list_lookup_insert_ne in Hlook by done.
        destruct (Hold j Hj Hlook Hne) as (o & [= <-] & Ho). by destruct Hne'.
  - rewrite take_app_le, length_app by lia. simpl.
    split; [done|]. split; [lia|]. split.
    + intros o [= <-]. simpl. lia.
    + intros j Hj Hlook. exists (mkCap (length caps) i). split; [done|]. simpl.
      destruct (decide (j = length caps)) as [->|Hne]; [done|]. exfalso.
      by destruct (Hold j Hj Hlook Hne) as (o & ? & _).
Qed.

Lemma scan_inv_release (caps0 caps : list bool) (c : VideoCapture) :
  scan_inv caps0 (Some c) caps ->
  scan_inv caps0 (Some c) (<[cap_id c := false]> caps).
Proof.
  intros (Htake & Hlen & Hid & Hopen). unfold scan_inv.
  destruct (Hid c eq_refl) as [Hlo Hhi].
  rewrite take_insert_ge, length_insert by lia.
  split; [done|]. split; [done|]. split; [done|].
  intros j Hj Hlook. exists c. split; [done|].
  destruct (decide (j = cap_id c)) as [->|Hne]; [done|].
  rewrite list_lookup_insert_ne in Hlook by done.
  by destruct (Hopen j Hj Hlook) as (o & [= <-] & Ho).
Qed.

(** One probe that starts after [t] external calls: it never raises, it
    makes exactly the calls of [probe_calls], and it appends [i] exactly
    when the driver opened device [i] and delivered a frame from it. *)
Lemma probe_outcome (env : Env) (i : Z) (caps0 : list bool) (locals : ScanLocals)
    (w : World) :
  scan_inv caps0 (cap locals) (captures w) ->
  exists locals' w',
    probe env i (locals, w) = (Ret tt, (locals', w')) /\
    available_cameras locals' =
      (if probe_finds env (now_tick w) i then available_cameras locals ++ [i]
       else available_cameras locals) /\
    trace w' = trace w ++ probe_calls env (now_tick w) i /\
    log_file w' = log_file w /\
    scan_inv caps0 (cap locals') (captures w').
Proof.
  intros Inv. destruct w as [caps file tr]. destruct locals as [found keep].
  simpl in Inv.
  pose proof (scan_inv_rebind caps0 caps keep true i Inv) as Inv_open.
  pose proof (scan_inv_rebind caps0 caps keep false i Inv) as Inv_closed.
  assert (forall b,
            match keep with
            | Some old => <[cap_id old := false]> (caps ++ [b])
            | None => caps ++ [b]
            end !! length caps = Some b) as Hnew.
  { intros b. destruct keep as [old|]; [|by rewrite list_lookup_middle].
    destruct Inv as (_ & _ & Hid & _). destruct (Hid old eq_refl) as [_ Hlt].
    rewrite list_lookup_insert_ne by lia. by rewrite list_lookup_middle. }
  destruct keep as [old|];
  unfold probe, VideoCapture_new, bind_cap, cap_read, cap_release, isOpened,
    append_camera, finalize, probe_finds, probe_calls;
  unfold_monad; unfold now_tick, record_event; simpl;
  (destruct (env_open env (length tr) i) eqn:Hopen; simpl;
   [ rewrite !Hnew; simpl; rewrite ?Hnew; simpl;
     rewrite length_app; simpl;
     replace (length tr + 1)%nat with (S (length tr)) by lia;
     destruct (env_read env (S (length tr)) i) as [f| |] eqn:Hread; simpl
   | rewrite !Hnew; simpl
   | ]);
  eexists _, _; (split; [reflexivity|]); simpl;
  rewrite <- ?app_assoc; (split; [done|]); (split; [done|]); (split; [done|]);
  first [ exact Inv | exact Inv_open | exact Inv_closed
        | exact (scan_inv_release caps0 _ (mkCap (length caps) i) Inv_open) ].
Qed.

(** The whole loop, from any point of it: it never raises, the candidates
    it appends are those of [scan_finds], and they are the candidates the
    recorded calls show open and read. *)
Lemma scan_outcome (env : Env) (candidates : list Z) (caps0 : list bool)
    (locals : ScanLocals) (w : World) :
  scan_inv caps0 (cap locals) (captures w) ->
  exists locals' w' evs,
    for_each candidates (probe env) (locals, w) = (Ret tt, (locals', w')) /\
    available_cameras locals' =
      available_cameras locals ++ scan_finds env (now_tick w) candidates /\
    trace w' = trace w ++ evs /\
    Forall (fun e => exists i, i ∈ candidates /\ event_index e = Some i) evs /\
    (NoDup candidates ->
     scan_finds env (now_tick w) candidates
       = List.filter (probed_ok evs) candidates) /\
    (forall i, i ∈ candidates -> exists o, EvOpen i o ∈ evs) /\
    log_file w' = log_file w /\
    scan_inv caps0 (cap locals') (captures w').
Proof.
  revert locals w.
  induction candidates as [|i candidates IH]; intros locals w Inv.
  - exists locals, w, []. simpl. rewrite !app_nil_r.
    split; [done|]. split; [done|]. split; [done|]. split; [done|].
    split; [done|]. split; [|done].
    intros i Hi. by apply elem_of_nil in Hi.
  - simpl for_each. unfold bind at 1.
    destruct (probe_outcome env i caps0 locals w Inv)
      as (locals1 & w1 & -> & Hav1 & Htr1 & Hf1 & Inv1).
    destruct (IH locals1 w1 Inv1)
      as (locals' & w' & evs2 & -> & Hav2 & Htr2 & Hidx2 & Hfil2 & Ho2 & Hf2 & Inv2).
    destruct (probe_calls_index env (now_tick w) i) as [Hidx1 Ho1].
    assert (now_tick w1 = (now_tick w + length (probe_calls env (now_tick w) i))%nat)
      as Htick.
    { unfold now_tick. by rewrite Htr1, length_app. }
    rewrite Htick in *.
    exists locals', w', (probe_calls env (now_tick w) i ++ evs2).
    split; [done|]. split; [|split; [|split; [|split; [|split; [|split]]]]].
    + rewrite Hav2, Hav1. simpl.
      destruct (probe_finds env (now_tick w) i); simpl; [|done].
      by rewrite <- app_assoc.
    + rewrite Htr2, Htr1. by rewrite app_assoc.
    + apply Forall_app. split.
      * eapply Forall_impl; [exact Hidx1|]. intros e He. exists i.
        split; [left | done].
      * eapply Forall_impl; [exact Hidx2|]. intros e (j & Hj & He). exists j.
        split; [by right | done].
    + intros Hnd. apply NoDup_cons in Hnd as [Hi Hnd]. simpl.
      assert (Forall (fun e => event_index e <> Some i) evs2) as Hnot_i.
      { eapply Forall_impl; [exact Hidx2|]. intros e (j & Hj & He). simpl.
        rewrite He. intros [= ->]. done. }
      rewrite probed_ok_app_l, probed_ok_probe_calls by done.
      rewrite (Hfil2 Hnd).
      assert (List.filter (probed_ok (probe_calls env (now_tick w) i ++ evs2))
                candidates
              = List.filter (probed_ok evs2) candidates) as ->.
      { apply List.filter_ext_in. intros j Hj. apply probed_ok_app_r.
        eapply Forall_impl; [exact Hidx1|]. intros e He. simpl. rewrite He.
        intros [= ->]. apply Hi. by apply list_elem_of_In. }
      by destruct (probe_finds env (now_tick w) i).
    + intros j Hj. apply elem_of_cons in Hj as [-> | Hj].
      * destruct Ho1 as [o Ho]. exists o. apply elem_of_app. by left.
      * destruct (Ho2 j Hj) as [o Ho]. exists o. apply elem_of_app. by right.
    + congruence.
    + done.
Qed.

Lemma scan_inv_start (caps : list bool) : scan_inv caps None caps.
Proof.
  unfold scan_inv. rewrite firstn_all. repeat split; try done.
  intros j Hj Hlook. apply lookup_lt_Some in Hlook. lia.
Qed.

(** With a driver whose answers do not change over time the scan finds
    the candidates that open and read. *)
Lemma scan_finds_stationary (env : Env) (opens reads : Z -> bool)
    (candidates : list Z) (t : nat) :
  (forall t i, env_open env t i = Opened <-> opens i = true) ->
  (forall t i, (exists f, env_read env t i = ReadFrame f) <-> reads i = true) ->
  scan_finds env t candidates
    = List.filter (fun i => opens i && reads i) candidates.
Proof.
  intros Hopens Hreads. revert t.
  induction candidates as [|i candidates IH]; intros t; simpl; [done|].
  rewrite IH.
  assert (probe_finds env t i = opens i && reads i) as ->; [|by destruct (_ && _)].
  unfold probe_finds. specialize (Hopens t i). specialize (Hreads (S t) i).
  destruct (env_open env t i); destruct (opens i); simpl;
    try done; try (by destruct Hopens as [H1 H2]; (discriminate H1 || discriminate H2)).
  destruct (env_read env (S t) i) as [f| |]; destruct (reads i);
    try done.
  - destruct Hreads as [H _]. by discriminate H; [exists f].
  - by destruct Hreads as [_ [f H]].
  - by destruct Hreads as [_ [f H]].
Qed.

(** C6: [get_available_cameras] never raises; it tries every index of
    0..3, in this order, whatever the earlier candidates did, and returns,
    in ascending order, exactly the indices that the driver opened and then
    delivered a frame from when the scan asked ([scan_finds], read off the
    driver's answers), which are also the indices for which the recorded
    calls show the device open and a frame read; with a driver whose
    answers do not change over time these are the indices of 0..3 that
    open and read; when there is none the result is the empty list. *)
Theorem scan_lists_working_cameras (env : Env) (w : World) :
  exists l w',
    get_available_cameras env w = (Ret l, w') /\
    l = scan_finds env (now_tick w) [0; 1; 2; 3] /\
    (forall opens reads : Z -> bool,
       (forall t i, env_open env t i = Opened <-> opens i = true) ->
       (forall t i, (exists f, env_read env t i = ReadFrame f) <-> reads i = true) ->
       l = List.filter (fun i => opens i && reads i) [0; 1; 2; 3]) /\
    l = List.filter (probed_ok (new_events w w')) [0; 1; 2; 3] /\
    StronglySorted Z.lt l /\
    (forall i, i ∈ l <-> 0 <= i < 4 /\ probed_ok (new_events w w') i = true) /\
    (forall i, 0 <= i < 4 -> exists o, EvOpen i o ∈ new_events w w') /\
    ((forall i, 0 <= i < 4 -> probed_ok (new_events w w') i = false) -> l = []).
Proof.
  destruct (scan_outcome env (range 4) (captures w)
              {| available_cameras := []; cap := None |} w (scan_inv_start _))
    as (locals & w1 & evs & Heq & Hav & Htr & _ & Hfil & Hall & _ & _).
  specialize (Hfil (NoDup_seqZ _ _)).
  change (range 4) with [0; 1; 2; 3] in *.
  unfold get_available_cameras. change (range 4) with [0; 1; 2; 3].
  rewrite Heq. cbn [available_cameras app] in Hav.
  exists (available_cameras locals), (drop_locals locals w1).
  split; [reflexivity|].
  assert (trace (drop_locals locals w1) = trace w ++ evs) as Htr'.
  { unfold drop_locals. by destruct (cap locals). }
  rewrite (new_events_app w _ evs) by done.
  assert (forall i, i ∈ [0; 1; 2; 3] <-> 0 <= i < 4) as Hrange.
  { intros i. change [0; 1; 2; 3] with (seqZ 0 4). rewrite elem_of_seqZ. lia. }
  split; [done|]. split; [|split; [|split; [|split; [|split]]]].
  - intros opens reads Hopens Hreads. rewrite Hav.
    by apply scan_finds_stationary.
  - congruence.
  - rewrite Hav, Hfil. simpl.
    destruct (probed_ok evs 0), (probed_ok evs 1), (probed_ok evs 2),
      (probed_ok evs 3); repeat constructor; lia.
  - intros i. rewrite Hav, Hfil.
    rewrite list_elem_of_In, List.filter_In, <- list_elem_of_In, Hrange.
    done.
  - intros i Hi. apply Hall. by apply Hrange.
  - intros Hnone. rewrite Hav, Hfil. simpl.
    rewrite !Hnone by lia. done.
Qed.

Lemma scan_lists_working_cameras_witness :
  (get_available_cameras env_only_1 fresh_world).1 = Ret [1].
Proof.
  destruct (scan_lists_working_cameras env_only_1 fresh_world)
    as (l & w' & Heq & _ & Hstationary & _).
  rewrite Heq. simpl. f_equal.
  apply (Hstationary (fun i => i =? 1) (fun _ => true)).
  - intros t i. simpl. destruct (i =? 1); split; (reflexivity || discriminate).
  - intros t i. simpl. split; [reflexivity|]. intros _. eexists. reflexivity.
Defined.

(** The scenario of the spec: only index 1 opens and reads, and the scan
    leaves no capture open. *)
Example scan_only_1 :
  get_available_cameras env_only_1 fresh_world
  = (Ret [1],
     {| captures := [false; false; false; false];
        log_file := None;
        trace := [EvOpen 0 NotOpened; EvOpen 1 Opened;
                  EvRead 1 (ReadFrame (sample_frame 2)); EvRelease 1;
                  EvOpen 2 NotOpened; EvOpen 3 NotOpened] |}).
Proof. reflexivity. Qed.

(** ** Request threads and the lock *)

Import Threads.

Lemma goto_lock_invariant (t : nat) (p : PC) (s : Sys) (l : option nat)
    (cfg : Config) (th : Thread) :
  threads cfg !! t = Some th ->
  lock_held_in_with_blocks cfg ->
  (in_with_block p = true -> l = Some t) ->
  (l = lock cfg \/
   forall t' th', t' <> t -> threads cfg !! t' = Some th' ->
     in_with_block (pc th') = false) ->
  lock_held_in_with_blocks (goto t p s l cfg).
Proof.
  intros Hth Inv Hp Hothers t' th' Hth' Hin. unfold goto in *. rewrite Hth in *.
  simpl in *. destruct (decide (t' = t)) as [->|Hne].
  - rewrite list_lookup_insert_eq in Hth' by (by eapply lookup_lt_Some).
    injection Hth' as <-. simpl in Hin. by apply Hp.
  - rewrite list_lookup_insert_ne in Hth' by done.
    destruct Hothers as [-> | Hothers].
    + by eapply Inv.
    + rewrite (Hothers t' th') in Hin; done.
Qed.

Ltac same_lock Inv Hth Hpc :=
  eapply goto_lock_invariant;
  [ exact Hth | exact Inv
  | intros Hin; first [discriminate Hin | apply (Inv _ _ Hth); by rewrite Hpc]
  | by left ].

Ltac other_lock Inv Hth Hpc :=
  eapply goto_lock_invariant;
  [ exact Hth | exact Inv
  | first [done | intros Hin; discriminate Hin]
  | right; intros t' th' Hne Hth';
    destruct (in_with_block (pc th')) eqn:Hin'; [|done];
    pose proof (Inv _ _ Hth' Hin');
    try (assert (in_with_block (pc _) = true) as Hin by (by rewrite Hpc);
         pose proof (Inv _ _ Hth Hin));
    congruence ].

Lemma step_lock_invariant (env : Env) (t : nat) (cfg cfg' : Config) :
  lock_held_in_with_blocks cfg ->
  step env t cfg = Some cfg' ->
  lock_held_in_with_blocks cfg'.
Proof.
  intros Inv Hstep. unfold step in Hstep.
  destruct (threads cfg !! t) as [th|] eqn:Hth; [|done].
  destruct (pc th) eqn:Hpc.
  - (* a call is entered *)
    destruct (todo th) as [|call rest]; [done|]. injection Hstep as <-.
    intros t' th' Hth' Hin. simpl in *. destruct (decide (t' = t)) as [->|Hne].
    + rewrite list_lookup_insert_eq in Hth' by (by eapply lookup_lt_Some).
      injection Hth' as <-. by destruct call.
    + rewrite list_lookup_insert_ne in Hth' by done. by eapply Inv.
  - destruct (lock cfg) eqn:Hl; [done|]. injection Hstep as <-.
    other_lock Inv Hth Hpc.
  - destruct (is_running _); injection Hstep as <-; same_lock Inv Hth Hpc.
  - destruct (lift_world _ _) as [[c|e] s']; injection Hstep as <-;
      same_lock Inv Hth Hpc.
  - destruct (camera _) as [c|]; [destruct (isOpened _ _)|];
      injection Hstep as <-; same_lock Inv Hth Hpc.
  - injection Hstep as <-; same_lock Inv Hth Hpc.
  - injection Hstep as <-; same_lock Inv Hth Hpc.
  - injection Hstep as <-. other_lock Inv Hth Hpc.
  - destruct (lock cfg) eqn:Hl; [done|]. injection Hstep as <-.
    other_lock Inv Hth Hpc.
  - destruct (negb _); injection Hstep as <-; same_lock Inv Hth Hpc.
  - injection Hstep as <-; same_lock Inv Hth Hpc.
  - destruct (camera _) as [c|]; injection Hstep as <-; same_lock Inv Hth Hpc.
  - injection Hstep as <-; same_lock Inv Hth Hpc.
  - injection Hstep as <-. other_lock Inv Hth Hpc.
  - destruct (is_running _); [destruct (camera _)|]; injection Hstep as <-;
      same_lock Inv Hth Hpc.
  - destruct (camera _) as [c'|]; injection Hstep as <-; same_lock Inv Hth Hpc.
  - injection Hstep as <-; same_lock Inv Hth Hpc.
Qed.

Lemma run_lock_invariant (env : Env) (schedule : list nat) (cfg cfg' : Config) :
  lock_held_in_with_blocks cfg ->
  run env schedule cfg = Some cfg' ->
  lock_held_in_with_blocks cfg'.
Proof.
  revert cfg. induction schedule as [|t schedule IH]; intros cfg Inv Hrun; simpl in *.
  - by injection Hrun as <-.
  - destruct (step env t cfg) as [cfg1|] eqn:Hstep; [|done].
    eapply IH; [|done]. by eapply step_lock_invariant.
Qed.

Lemma spawn_lock_invariant (s : Sys) (calls : list (list Call)) :
  lock_held_in_with_blocks (spawn s calls).
Proof.
  intros t th Hth Hin. unfold spawn in Hth. simpl in Hth.
  rewrite list_lookup_fmap in Hth.
  destruct (calls !! t); simpl in Hth; [|done]. injection Hth as <-. done.
Qed.

(** What the lock does give: however the threads are scheduled, at most
    one of them is inside a [with self.lock] block, so two [start] calls
    never run their open-and-switch-on part at the same time, nor does a
    [start] overlap a [stop]. *)
Lemma with_blocks_exclude_each_other (env : Env) (s : Sys)
    (calls : list (list Call)) (schedule : list nat) (cfg : Config)
    (t1 t2 : nat) (th1 th2 : Thread) :
  run env schedule (spawn s calls) = Some cfg ->
  threads cfg !! t1 = Some th1 -> threads cfg !! t2 = Some th2 ->
  in_with_block (pc th1) = true -> in_with_block (pc th2) = true ->
  t1 = t2.
Proof.
  intros Hrun H1 H2 Hin1 Hin2.
  pose proof (run_lock_invariant env schedule _ _ (spawn_lock_invariant s calls) Hrun)
    as Inv.
  pose proof (Inv _ _ H1 Hin1). pose proof (Inv _ _ H2 Hin2). congruence.
Qed.

(** C2, at the failing schedule: thread 0 has passed the guard of
    [get_frame] and waits inside [read] on the capture, holding no lock;
    thread 1 then takes the free lock, and [stop] releases that capture and
    clears the field while the read is still under way. *)
Theorem stop_releases_capture_during_read :
  exists c cfg1 cfg2,
    run env_fine (take 13 stop_during_read) viewer_and_stopper = Some cfg1 /\
    run env_fine stop_during_read viewer_and_stopper = Some cfg2 /\
    pc <$> threads cfg1 !! 0%nat = Some (FrameReading c) /\
    pc <$> threads cfg1 !! 1%nat = Some StopCheck /\
    lock cfg1 = Some 1%nat /\
    isOpened c (world (sys cfg1)) = true /\
    ~ frames_read_under_lock cfg1 /\
    pc <$> threads cfg2 !! 0%nat = Some (FrameReading c) /\
    pc <$> threads cfg2 !! 1%nat = Some Idle /\
    lock cfg2 = None /\
    camera (cm (sys cfg2)) = None /\
    isOpened c (world (sys cfg2)) = false /\
    ~ frames_read_under_lock cfg2.
Proof.
  exists (mkCap 0 0).
  destruct (run env_fine (take 13 stop_during_read) viewer_and_stopper)
    as [cfg1|] eqn:H1; vm_compute in H1; [|discriminate H1].
  destruct (run env_fine stop_during_read viewer_and_stopper)
    as [cfg2|] eqn:H2; vm_compute in H2; [|discriminate H2].
  injection H1 as <-. injection H2 as <-.
  eexists _, _. split; [reflexivity|]. split; [reflexivity|].
  repeat split.
  - intros H. by specialize (H 0%nat _ eq_refl eq_refl).
  - intros H. by specialize (H 0%nat _ eq_refl eq_refl).
Qed.

(** A thread that is left alone does what the method does: the program
    points are those of [start], [stop] and [get_frame]. *)
Lemma solo_call_is_method (env : Env) (call : Call) (s : Sys) :
  exists n,
    run env (replicate n 0%nat) (spawn s [[call]]) =
      Some {| sys := method env call s; lock := None;
              threads := [{| pc := Idle; todo := [] |}] |}.
Proof.
  destruct s as [[cam running cnt idx] [caps file tr]].
  destruct call as [i| |]; simpl.
  - destruct running.
    + exists 4%nat. rewrite start_running by done. cbn. done.
    + rewrite start_stopped by done. cbn.
      destruct (env_open env (length tr) i) eqn:Hopen;
        [exists 8%nat | exists 6%nat | exists 5%nat]; cbn;
        unfold lift_world, VideoCapture_new, now_tick, record_event; cbn;
        rewrite Hopen; cbn.
      * unfold isOpened. cbn. rewrite list_lookup_middle by done. cbn. done. 
      * unfold isOpened. cbn. rewrite list_lookup_middle by done. cbn. done. 
      * done.
  - destruct running.
    + destruct cam as [c|]; [exists 7%nat | exists 6%nat]; cbn; done.
    + exists 4%nat. cbn. done.
  - destruct running; [|by exists 2%nat].
    destruct cam as [c|]; [|by exists 2%nat].
    exists 4%nat. cbn. do 3 f_equal.
Qed.

(** ** Runs on the sample environments *)

(** The scenario of the spec: [start(1)], status, [stop()], status. *)
Example start_status_stop_status :
  (get_status env_fine running_on_1).1 =
    Ret {| st_camera_on := true; st_current_idx := 1;
           st_yolo_available := true; st_detection_count := 0 |} /\
  (get_status env_fine (exec env_fine OpStop running_on_1)).1 =
    Ret {| st_camera_on := false; st_current_idx := 1;
           st_yolo_available := true; st_detection_count := 0 |}.
Proof. split; reflexivity. Qed.

(** A frame source that fails every other read: the ticks alternate
    between a frame and "no frame", and the session stays RUNNING. *)
Example flaky_reads_alternate :
  let s0 := exec env_flaky (OpStart 0) (boot fresh_world) in
  let s1 := exec env_flaky OpGetFrame s0 in
  let s2 := exec env_flaky OpGetFrame s1 in
  (get_frame env_flaky s0).1 = Ret (Some [1; 0]) /\
  (get_frame env_flaky s1).1 = Ret None /\
  (get_frame env_flaky s2).1 = Ret (Some [5; 0]) /\
  is_running (cm (exec env_flaky OpGetFrame s2)) = true.
Proof. repeat split. Qed.

(** One person per frame: each tick paints a box and a label, logs one
    record and counts it. *)
Example one_person_per_tick :
  let s := exec_all env_one_person [OpStart 1; OpGetFrame; OpGetFrame]
             (boot fresh_world) in
  detection_count (cm s) = 2 /\
  (length <$> file_list (world s)) = Some 2%nat /\
  (get_frame env_one_person s).1 = Ret (Some [12; 2]).
Proof. repeat split. Qed.

(** Two threads start a camera: while the first is inside its [with]
    block the second cannot take a step past [with self.lock]. *)
Example second_starter_waits :
  lock <$> run env_fine [0; 0; 1]%nat two_starters = Some (Some 0%nat) /\
  run env_fine [0; 0; 1; 1]%nat two_starters = None /\
  lock <$> run env_fine [0; 0; 1; 0; 0; 0; 0; 0; 0; 1]%nat two_starters
    = Some (Some 1%nat).
Proof. repeat split. Qed.

(** * Further properties of the code *)

(** ** Stop, start and what they report *)

(** X1: after [stop()] the session is STOPPED whatever it was before, a
    second [stop()] only reports "already stopped" and changes nothing, and
    a [stop()] on a RUNNING session closes the capture it held and clears
    the field. *)
Theorem stop_twice_is_stop_once (s : Sys) :
  is_running (cm (stop s).2) = false /\
  stop (stop s).2 =
    (Ret {| success := true; message := MsgAlreadyStopped |}, (stop s).2) /\
  (is_running (cm s) = true ->
   camera (cm (stop s).2) = None /\
   forall c, camera (cm s) = Some c -> isOpened c (world (stop s).2) = false).
Proof.
  split; [apply stop_not_running|]. split.
  - apply stop_stopped, stop_not_running.
  - intros Hrun. destruct s as [[cam running cnt idx] [caps file tr]].
    simpl in Hrun. subst. destruct cam as [c|]; simpl; (split; [done|]); [|done].
    intros c' [= <-]. unfold isOpened. simpl.
    destruct (caps !! cap_id c) as [b|] eqn:Hc.
    + rewrite list_lookup_insert_eq by (by eapply lookup_lt_Some). done.
    + rewrite list_insert_ge by (by apply lookup_ge_None). by rewrite Hc.
Qed.

Lemma stop_twice_is_stop_once_witness :
  is_running (cm running_on_1) = true /\
  camera (cm (stop running_on_1).2) = None /\
  forall c, camera (cm running_on_1) = Some c ->
            isOpened c (world (stop running_on_1).2) = false.
Proof.
  split; [reflexivity|].
  exact (proj2 (proj2 (stop_twice_is_stop_once running_on_1)) eq_refl).
Defined.



(** ** The control endpoint *)

(** X3: how [control] reads a JSON object.  The action is compared without
    regard to the case of its letters; "on" starts the camera named by
    [camera_index], camera 0 when the key is missing; "off" is [stop]; a
    missing action is answered like an unknown one; an index that is a
    string [int] cannot read makes the view raise [ValueError] before the
    session is touched. *)
Theorem control_reads_the_request (env : Env) (kvs : list (string * Json))
    (s : Sys) :
  (forall a, dict_lookup "action" kvs = Some (JStr a) -> lower a = "on" ->
     (dict_lookup "camera_index" kvs = None ->
      control env (Body (JDict kvs)) s = start env 0 s) /\
     (forall i, dict_lookup "camera_index" kvs = Some (JInt i) ->
      control env (Body (JDict kvs)) s = start env i s) /\
     (forall x, dict_lookup "camera_index" kvs = Some (JStr x) ->
      int_of_str env x = None ->
      control env (Body (JDict kvs)) s = (Raise ValueError, s))) /\
  (forall a, dict_lookup "action" kvs = Some (JStr a) -> lower a = "off" ->
     control env (Body (JDict kvs)) s = stop s) /\
  (dict_lookup "action" kvs = None ->
     control env (Body (JDict kvs)) s =
       (Ret {| success := false; message := MsgBadRequest |}, s)).
Proof.
  split; [|split].
  - intros a Ha Hon. unfold control, get_json, py_get, py_lower, py_int.
    unfold_monad. rewrite Ha. simpl. rewrite Hon. simpl.
    split; [|split].
    + intros ->. simpl. by destruct (start env 0 s) as [[r|e] s'].
    + intros i ->. simpl. by destruct (start env i s) as [[r|e] s'].
    + intros x -> Hx. simpl. by rewrite Hx.
  - intros a Ha Hoff. unfold control, get_json, py_get, py_lower.
    unfold_monad. rewrite Ha. simpl. rewrite Hoff. simpl.
    by destruct (stop s) as [[r|e] s'].
  - intros Ha. unfold control, get_json, py_get, py_lower.
    unfold_monad. rewrite Ha. simpl. done.
Qed.

Lemma control_reads_the_request_witness :
  dict_lookup "action" [("action", JStr "ON")] = Some (JStr "ON") /\
  lower "ON" = "on" /\
  dict_lookup "camera_index" [("action", JStr "ON")] = None /\
  control env_fine request_on (boot fresh_world) = start env_fine 0 (boot fresh_world).
Proof.
  split; [reflexivity|]. split; [reflexivity|]. split; [reflexivity|].
  exact (proj1 (proj1 (control_reads_the_request env_fine
                         [("action", JStr "ON")] (boot fresh_world))
                  "ON" eq_refl eq_refl) eq_refl).
Defined.

Lemma control_cases (env : Env) (request : RequestBody) (s : Sys) :
  (exists e, control env request s = (Raise e, s) /\ e <> CvError) \/
  control env request s =
    (Ret {| success := false; message := MsgBadRequest |}, s) \/
  (exists i, control env request s = start env i s) \/
  control env request s = stop s.
Proof.
  unfold control, get_json. destruct request as [|j]; unfold_monad.
  { left. by exists BadRequest. }
  unfold py_get. destruct j as [| | | | | |kvs];
    try (left; by exists AttributeError).
  simpl.
  destruct (match dict_lookup "action" kvs with Some v => v | None => JStr "" end)
    as [| | | |a| |] eqn:Haction; simpl; try (left; by exists AttributeError).
  destruct (String.eqb (lower a) "on").
  - unfold py_int.
    destruct (match dict_lookup "camera_index" kvs with
              | Some v => v | None => JInt 0 end) as [|b|i|q|x|l|d];
      simpl; try (left; by exists TypeError).
    + right. right. left. exists (if b then 1 else 0).
      by destruct (start env _ s) as [[r|e] s'].
    + right. right. left. exists i. by destruct (start env i s) as [[r|e] s'].
    + right. right. left.
      exists (Z.quot (QArith_base.Qnum (Qcanon.this q))
                     (Z.pos (QArith_base.Qden (Qcanon.this q)))).
      by destruct (start env _ s) as [[r|e] s'].
    + destruct (int_of_str env x) as [i|]; simpl.
      * right. right. left. exists i. by destruct (start env i s) as [[r|e] s'].
      * left. by exists ValueError.
  - destruct (String.eqb (lower a) "off").
    + right. right. right. by destruct (stop s) as [[r|e] s'].
    + right. by left.
Qed.

(** X4: whatever the body, [control] does one of four things: it raises
    before it has touched anything, it answers "bad request" without
    touching anything, it is a [start], or it is a [stop]. *)
Theorem control_is_start_or_stop (env : Env) (request : RequestBody) (s : Sys) :
  (exists e, control env request s = (Raise e, s) /\ e <> CvError) \/
  control env request s =
    (Ret {| success := false; message := MsgBadRequest |}, s) \/
  (exists i, control env request s = start env i s) \/
  control env request s = stop s.
Proof. exact (control_cases env request s). Qed.

(** ** What the registry scan leaves behind *)

Lemma for_each_cons_ret {St A} (a : A) (l : list A) (body : A -> M St unit)
    (s s1 : St) :
  body a s = (Ret tt, s1) -> for_each (a :: l) body s = for_each l body s1.
Proof. intros H. simpl. unfold bind. by rewrite H. Qed.

Lemma none_open (caps : list bool) :
  (forall j, caps !! j <> Some true) ->
  List.filter (fun b : bool => b) caps = [].
Proof.
  induction caps as [|b caps IH]; intros H; [done|].
  simpl. destruct b.
  - by destruct (H 0%nat).
  - apply IH. intros j. apply (H (S j)).
Qed.

(** When the scan returns and its locals go away, the captures it made
    are all closed and the others are as they were. *)
Lemma scan_inv_drop_locals (caps0 caps : list bool) (keep : option VideoCapture) :
  scan_inv caps0 keep caps ->
  exists new,
    match keep with
    | Some c => <[cap_id c := false]> caps
    | None => caps
    end = caps0 ++ new /\
    forall j, new !! j <> Some true.
Proof.
  intros (Htake & Hlen & Hid & Hopen).
  set (caps' := match keep with
                | Some c => <[cap_id c := false]> caps
                | None => caps
                end).
  exists (drop (length caps0) caps'). split.
  - rewrite <- (take_drop (length caps0) caps') at 1. f_equal.
    subst caps'. destruct keep as [c|]; [|done].
    destruct (Hid c eq_refl) as [Hlo Hhi]. rewrite take_insert_ge; [done|lia].
  - intros j Hj. rewrite lookup_drop in Hj. subst caps'.
    destruct keep as [c|].
    + destruct (decide (length caps0 + j = cap_id c)%nat) as [He|Hne].
      * rewrite He, list_lookup_insert_eq in Hj; [done|].
        destruct (Hid c eq_refl). lia.
      * rewrite list_lookup_insert_ne in Hj by done.
        destruct (Hopen (length caps0 + j)%nat ltac:(lia) Hj) as (o & [= <-] & Ho). by destruct Hne.
    + by destruct (Hopen (length caps0 + j)%nat ltac:(lia) Hj) as (o & ? & _).
Qed.

Lemma scan_captures_spec (env : Env) (w : World) :
  let w' := (get_available_cameras env w).2 in
  (forall c, (cap_id c < length (captures w))%nat ->
     isOpened c w' = isOpened c w) /\
  (forall c, (length (captures w) <= cap_id c)%nat -> isOpened c w' = false) /\
  open_captures w' = open_captures w /\
  log_file w' = log_file w /\
  (length (captures w) <= length (captures w'))%nat.
Proof.
  intros w'.
  destruct (scan_outcome env (range 4) (captures w)
              {| available_cameras := []; cap := None |} w (scan_inv_start _))
    as (locals & w1 & evs & Heq & _ & _ & _ & _ & _ & Hf & Inv).
  destruct (scan_inv_drop_locals _ _ _ Inv) as (new & Hcaps & Hclosed).
  assert (captures w' = captures w ++ new /\ log_file w' = log_file w) as [Hc Hl].
  { subst w'. unfold get_available_cameras. rewrite Heq. simpl.
    unfold drop_locals, finalize. destruct (cap locals); simpl; by rewrite ?Hcaps. }
  split; [|split; [|split; [|split]]].
  - intros c Hlt. unfold isOpened. by rewrite Hc, lookup_app_l.
  - intros c Hge. unfold isOpened. rewrite Hc, lookup_app_r by done.
    destruct (new !! _) as [[]|] eqn:Hn; try done. by destruct (Hclosed _ Hn).
  - unfold open_captures. rewrite Hc, List.filter_app, length_app.
    rewrite (none_open new Hclosed). simpl. lia.
  - done.
  - rewrite Hc, length_app. lia.
Qed.

(** X5: [get_available_cameras] leaves no capture open behind it: the
    captures that existed before the scan are open or closed as they
    were, every capture the scan made is closed when it returns (released
    by the scan, or, when the read raised and the [except] skipped the
    [release], by the destructor once the local [cap] is rebound or the
    function returns), so as many captures are open after the scan as
    before; and the log file is not touched. *)
Theorem scan_leaves_session_captures (env : Env) (w : World) :
  let w' := (get_available_cameras env w).2 in
  (forall c, (cap_id c < length (captures w))%nat ->
     isOpened c w' = isOpened c w) /\
  (forall c, (length (captures w) <= cap_id c)%nat -> isOpened c w' = false) /\
  open_captures w' = open_captures w /\
  log_file w' = log_file w.
Proof.
  destruct (scan_captures_spec env w) as (H1 & H2 & H3 & H4 & _). done.
Qed.

Lemma scan_leaves_session_captures_witness :
  (cap_id (mkCap 0 1) < length (captures (world running_on_1)))%nat /\
  isOpened (mkCap 0 1)
    (get_available_cameras env_read_raises (world running_on_1)).2 = true /\
  (length (captures (world running_on_1)) <= cap_id (mkCap 2 1))%nat /\
  isOpened (mkCap 2 1)
    (get_available_cameras env_read_raises (world running_on_1)).2 = false.
Proof.
  split; [simpl; lia|]. split.
  - exact (proj1 (scan_leaves_session_captures env_read_raises (world running_on_1))
             (mkCap 0 1) ltac:(simpl; lia)).
  - split; [simpl; lia|].
    exact (proj1 (proj2 (scan_leaves_session_captures env_read_raises
                           (world running_on_1)))
             (mkCap 2 1) ltac:(simpl; lia)).
Defined.

(** A scan in which every read raises: each of the four captures stays
    open until the next one is bound or the function returns, and none is
    open afterwards. *)
Example scan_with_raising_reads :
  get_available_cameras env_read_raises fresh_world
  = (Ret [],
     {| captures := [false; false; false; false];
        log_file := None;
        trace := [EvOpen 0 Opened; EvRead 0 ReadRaises;
                  EvOpen 1 Opened; EvRead 1 ReadRaises;
                  EvOpen 2 Opened; EvRead 2 ReadRaises;
                  EvOpen 3 Opened; EvRead 3 ReadRaises] |}).
Proof. reflexivity. Qed.

(** ** The captures over a run of requests *)

Lemma open_count_release (caps : list bool) (i : nat) :
  caps !! i = Some true ->
  (length (List.filter (fun b : bool => b) (<[i := false]> caps)) + 1)%nat
  = length (List.filter (fun b : bool => b) caps).
Proof.
  intros H. pose proof (lookup_lt_Some _ _ _ H) as Hlt.
  rewrite insert_take_drop by done.
  rewrite <- (take_drop_middle caps i true H) at 3.
  rewrite !List.filter_app, !length_app. simpl. lia.
Qed.

Lemma accounted_start (env : Env) (i : Z) (base : nat) (s : Sys) :
  captures_accounted base s -> captures_accounted base (start env i s).2.
Proof.
  intros (Hrun & Hid & Hcount). destruct (is_running (cm s)) eqn:Hr.
  { rewrite start_running by done. simpl. unfold captures_accounted.
    by rewrite Hr. }
  rewrite start_stopped by done. unfold captures_accounted, holds_open_capture.
  destruct s as [[cam running cnt idx] [caps file tr]]. simpl in *. subst.
  unfold open_captures in *. simpl in *.
  destruct (env_open env _ i); simpl.
  - split; [|split].
    + split; [intros _|done]. eexists. split; [done|].
      unfold isOpened. simpl. by rewrite list_lookup_middle.
    + intros c [= <-]. simpl. rewrite length_app. simpl. lia.
    + rewrite List.filter_app, length_app. simpl. lia.
  - split; [|split].
    + split; [done|]. intros (c & [= <-] & Hopen). unfold isOpened in Hopen.
      simpl in Hopen. by rewrite list_lookup_middle in Hopen.
    + intros c [= <-]. simpl. rewrite length_app. simpl. lia.
    + rewrite List.filter_app, length_app. simpl. lia.
  - done.
Qed.

Lemma accounted_stop (base : nat) (s : Sys) :
  captures_accounted base s -> captures_accounted base (stop s).2.
Proof.
  intros (Hrun & Hid & Hcount). destruct (is_running (cm s)) eqn:Hr.
  2: { rewrite stop_stopped by done. simpl. unfold captures_accounted.
       by rewrite Hr. }
  destruct (proj1 Hrun eq_refl) as (c & Hcam & Hopen).
  destruct s as [[cam running cnt idx] [caps file tr]]. simpl in *. subst.
  unfold captures_accounted, holds_open_capture, open_captures in *. simpl in *.
  split; [|split].
  - split; [done|]. by intros (c' & ? & _).
  - done.
  - unfold isOpened in Hopen. simpl in Hopen.
    destruct (caps !! cap_id c) as [[]|] eqn:Hc; try done.
    pose proof (open_count_release caps (cap_id c) Hc). lia.
Qed.

Lemma accounted_quiet (base : nat) (s s' : Sys) :
  quiet s s' -> captures_accounted base s -> captures_accounted base s'.
Proof.
  intros (Hcam & Hr & _ & Hcaps) (Hrun & Hid & Hcount).
  unfold captures_accounted, holds_open_capture, open_captures in *.
  rewrite Hcam, Hr, Hcaps. split; [|done].
  rewrite Hrun. split; intros (c & ? & Hopen); exists c; (split; [done|]);
    [rewrite <- Hopen | rewrite <- Hopen; symmetry]; by apply isOpened_ext.
Qed.

Lemma accounted_control (env : Env) (request : RequestBody) (base : nat) (s : Sys) :
  captures_accounted base s -> captures_accounted base (control env request s).2.
Proof.
  intros Inv.
  destruct (control_cases env request s)
    as [(e & -> & _) | [-> | [(i & ->) | ->]]]; simpl; try done.
  - by apply accounted_start.
  - by apply accounted_stop.
Qed.

Lemma accounted_scan (env : Env) (base : nat) (s : Sys) :
  captures_accounted base s ->
  captures_accounted base (list_cameras env s).2.
Proof.
  intros (Hrun & Hid & Hcount).
  destruct (scan_captures_spec env (world s)) as (Hsame & _ & Hopen & _ & Hgrow).
  unfold list_cameras, lift_world in *.
  destruct (get_available_cameras env (world s)) as [r w'] eqn:Hscan.
  simpl in *. unfold captures_accounted, holds_open_capture. simpl.
  split; [|split].
  - rewrite Hrun. unfold holds_open_capture.
    split; intros (c & Hc & Ho); exists c; (split; [done|]);
      [rewrite Hsame by (by apply Hid) | rewrite <- Hsame by (by apply Hid)]; done.
  - intros c Hc. specialize (Hid c Hc). lia.
  - by rewrite Hopen, Hcount.
Qed.

Lemma accounted_serve (env : Env) (request : Request) (base : nat) (s : Sys) :
  captures_accounted base s ->
  captures_accounted base (serve env request s).
Proof.
  intros Inv. destruct request as [|body| |]; simpl.
  - by apply accounted_scan.
  - by apply accounted_control.
  - eapply accounted_quiet; [|done]. unfold generate_turn. unfold bind.
    pose proof (quiet_get_frame env s) as Hq.
    by destruct (get_frame env s) as [[[j|]|e] s'].
  - done.
Qed.

Lemma serve_all_cons (env : Env) (request : Request) (requests : list Request)
    (s : Sys) :
  serve_all env (request :: requests) s = serve_all env requests (serve env request s).
Proof. reflexivity. Qed.

Lemma accounted_serve_all (env : Env) (requests : list Request) (base : nat)
    (s : Sys) :
  captures_accounted base s ->
  captures_accounted base (serve_all env requests s).
Proof.
  revert s. induction requests as [|request requests IH]; intros s Inv; [done|].
  rewrite serve_all_cons. apply IH. by apply accounted_serve.
Qed.

(** X6: over any run of requests to the four routes, from a new process:
    the session is RUNNING exactly when the [camera] field holds an open
    capture, and the captures open in the world are those that were open
    at the start and the one of the session while it is RUNNING.  A scan,
    a start, a stop and the stream never leave a capture open behind
    them. *)
Theorem captures_are_accounted_for (env : Env) (requests : list Request)
    (w : World) :
  let s := serve_all env requests (boot w) in
  (is_running (cm s) = true <-> holds_open_capture s) /\
  open_captures (world s) =
    (open_captures w + if is_running (cm s) then 1 else 0)%nat.
Proof.
  intros s.
  assert (captures_accounted (open_captures w) (boot w)) as Inv.
  { unfold captures_accounted, holds_open_capture. simpl.
    split; [|split]; [| done | lia]. split; [done|]. by intros (c & ? & _). }
  destruct (accounted_serve_all env requests _ _ Inv) as (Hrun & _ & Hcount).
  done.
Qed.

(** While every read raises: nothing is open after the scan, the capture
    of the session is while it runs, and nothing is after the stop. *)
Example captures_on_a_busy_morning :
  open_captures (world (serve_all env_read_raises (take 1 busy_morning)
                          (boot fresh_world))) = 0%nat /\
  open_captures (world (serve_all env_read_raises (take 3 busy_morning)
                          (boot fresh_world))) = 1%nat /\
  open_captures (world (serve_all env_read_raises busy_morning
                          (boot fresh_world))) = 0%nat.
Proof. repeat split. Qed.

(** ** A log file that cannot be used *)

Lemma log_detection_unusable (env : Env) (cn : string) (cf : float) (s : Sys) :
  log_unusable (world s) ->
  exists evs,
    log_detection env cn cf s =
      (Ret tt, {| cm := cm s;
                  world := {| captures := captures (world s);
                              log_file := log_file (world s);
                              trace := trace (world s) ++ evs |} |}) /\
    written evs = 0%nat.
Proof.
  destruct s as [[cam running cnt idx] [caps file tr]].
  unfold log_unusable, file_list. simpl. intros Hbad.
  unfold log_detection, load_log, now, dump_log, py_append.
  unfold_monad. unfold now_tick, record_event. simpl.
  destruct file as [[|j]|]; [| |done]; simpl.
  - destruct (env_load_fails env (length tr)); by exists [EvLoad false].
  - destruct (env_load_fails env (length tr)); simpl; [by exists [EvLoad false]|].
    destruct j; try done; simpl; rewrite <- app_assoc; by exists [EvLoad true; EvNow].
Qed.

Lemma log_all_cons (env : Env) (det : string * float)
    (dets : list (string * float)) (s : Sys) :
  log_all env (det :: dets) s = log_all env dets (log_detection env det.1 det.2 s).2.
Proof.
  unfold log_all.
  destruct (log_detection_outcome env det.1 det.2 s) as (s' & Heq & _).
  rewrite (for_each_cons_ret det dets
             (fun det => log_detection env det.1 det.2) s s' Heq).
  by rewrite Heq.
Qed.

Ltac not_in_list :=
  rewrite ?not_elem_of_cons; repeat split; (done || apply not_elem_of_nil).

Lemma dump_failure_corrupts (env : Env) (cn : string) (cf : float) (s : Sys) :
  EvDump WriteDumpFails ∈
    new_events (world s) (world (log_detection env cn cf s).2) ->
  log_file (world (log_detection env cn cf s).2) = Some Unparsable.
Proof.
  destruct s as [[cam running cnt idx] [caps file tr]].
  unfold log_detection, load_log, now, dump_log, py_append.
  unfold_monad. unfold now_tick, record_event. simpl.
  assert (forall evs w', trace w' = tr ++ evs -> EvDump WriteDumpFails ∉ evs ->
            EvDump WriteDumpFails ∈ new_events (mkWorld caps file tr) w' ->
            log_file w' = Some Unparsable) as Hnot.
  { intros evs w' Htr Hevs Hin. by rewrite (new_events_app _ w' evs) in Hin. }
  destruct file as [[|j]|]; simpl.
  - destruct (env_load_fails env (length tr)); simpl;
      apply (Hnot [EvLoad false]); try done; not_in_list.
  - destruct (env_load_fails env (length tr)); simpl.
    { apply (Hnot [EvLoad false]); try done; not_in_list. }
    destruct j; simpl;
      try (apply (Hnot [EvLoad true; EvNow]);
           [by rewrite <- app_assoc | not_in_list]).
    destruct (env_dump env _) eqn:Hdump; simpl; [| |done].
    + apply (Hnot [EvLoad true; EvNow; EvDump Written]);
        [by rewrite <- !app_assoc | not_in_list].
    + apply (Hnot [EvLoad true; EvNow; EvDump WriteOpenFails]);
        [by rewrite <- !app_assoc | not_in_list].
  - destruct (env_dump env _) eqn:Hdump; simpl; [| |done].
    + apply (Hnot [EvNow; EvDump Written]); [by rewrite <- !app_assoc | not_in_list].
    + apply (Hnot [EvNow; EvDump WriteOpenFails]);
        [by rewrite <- !app_assoc | not_in_list].
Qed.

(** X7: [log_detection] never repairs a log file it cannot use.  Once the
    file does not parse or holds something that is not a list, every later
    detection is dropped: the file stays as it is, nothing is written and
    the counter stands still.  A [json.dump] that fails half way is one
    way to get there: it leaves the truncated file behind. *)
Theorem unusable_log_silences_logging (env : Env) :
  (forall dets s,
     log_unusable (world s) ->
     let s' := (log_all env dets s).2 in
     log_file (world s') = log_file (world s) /\
     detection_count (cm s') = detection_count (cm s) /\
     written (new_events (world s) (world s')) = 0%nat) /\
  (forall cn cf s,
     let s' := (log_detection env cn cf s).2 in
     EvDump WriteDumpFails ∈ new_events (world s) (world s') ->
     log_unusable (world s')).
Proof.
  split.
  - intros dets. induction dets as [|[cn cf] dets IH]; intros s Hbad; simpl.
    + unfold new_events. by rewrite drop_all.
    + rewrite log_all_cons. simpl.
      destruct (log_detection_unusable env cn cf s Hbad) as (evs & Heq & Hw).
      rewrite Heq. simpl.
      set (s1 := {| cm := cm s; world := _ |}).
      assert (log_unusable (world s1)) as Hbad1 by done.
      destruct (IH s1 Hbad1) as (Hfile & Hcount & Hwritten). simpl in *.
      split; [done|]. split; [done|].
      assert (exists evs2, trace (world (log_all env dets s1).2)
                           = trace (world s1) ++ evs2) as (evs2 & Ht2).
      { destruct (log_all_outcome env dets s1) as (s' & evs2 & Hs' & Ht & _).
        rewrite Hs'. by exists evs2. }
      rewrite (new_events_app _ _ evs2) in Hwritten by done.
      rewrite (new_events_app _ _ (evs ++ evs2)).
      * rewrite written_app. lia.
      * rewrite Ht2. simpl. by rewrite app_assoc.
  - intros cn cf s s' Hin. unfold log_unusable, file_list. subst s'.
    by rewrite dump_failure_corrupts.
Qed.

Lemma unusable_log_silences_logging_witness :
  log_unusable world_bad_log /\
  log_file (world (log_all env_fine two_detections (boot world_bad_log)).2)
    = Some Unparsable /\
  detection_count (cm (log_all env_fine two_detections (boot world_bad_log)).2) = 0.
Proof.
  split; [reflexivity|].
  destruct (proj1 (unusable_log_silences_logging env_fine)
              two_detections (boot world_bad_log) eq_refl) as (Hf & Hc & _).
  exact (conj Hf Hc).
Defined.

(** ** What the detector paints and logs *)

Lemma for_each_app {St A} (l1 l2 : list A) (body : A -> M St unit) (s : St) :
  for_each (l1 ++ l2) body s =
    bind (for_each l1 body) (fun _ => for_each l2 body) s.
Proof.
  revert s. induction l1 as [|a l1 IH]; intros s; simpl; [done|].
  unfold bind in *. destruct (body a s) as [[[]|e] s1]; [|done]. apply IH.
Qed.

Lemma for_each_concat {St A} (ls : list (list A)) (body : A -> M St unit) (s : St) :
  for_each ls (fun l => for_each l body) s = for_each (concat ls) body s.
Proof.
  revert s. induction ls as [|l ls IH]; intros s; simpl; [done|].
  rewrite for_each_app. unfold bind.
  destruct (for_each l body s) as [[[]|e] s1]; [|done]. apply IH.
Qed.

Lemma detect_boxes_state (env : Env) (boxes : list Box) (f : Frame) (s : Sys) :
  (for_each boxes (detect_box env) (f, s)).2 =
    ({| raw := raw f;
        overlay := overlay f ++ drawings_of env (named_prefix env boxes) |},
     (log_all env (detections_of (named_prefix env boxes)) s).2).
Proof.
  revert f s. induction boxes as [|box boxes IH]; intros f s.
  - simpl. unfold drawings_of. simpl. rewrite app_nil_r. by destruct f.
  - simpl. unfold bind at 1. unfold detect_box at 1.
    destruct (env_names env (cls box)) as [name|] eqn:Hname.
    + unfold detections_of. simpl. rewrite log_all_cons. simpl.
      destruct (log_detection_outcome env name (conf box) s) as (s1 & Heq & _).
      unfold drawings_of. simpl. unfold box_drawings at 1.
      destruct (xyxy box) as [[[x1 y1] x2] y2]. unfold_monad. simpl.
      rewrite Heq. simpl. rewrite IH. simpl. unfold drawings_of, detections_of.
      by rewrite <- !app_assoc.
    + destruct (xyxy box) as [[[x1 y1] x2] y2]. unfold_monad. simpl.
      unfold drawings_of. simpl. rewrite app_nil_r. by destruct f.
Qed.

Lemma detect_objects_results (env : Env) (frame : Frame) (s : Sys)
    (results : list (list Box)) :
  env_model env (now_tick (world s)) frame = ModelResults results ->
  let named := named_prefix env (concat results) in
  detect_objects env frame s =
    (Ret {| raw := raw frame; overlay := overlay frame ++ drawings_of env named |},
     (log_all env (detections_of named) (after_model (ModelResults results) s)).2).
Proof.
  intros Hmodel named. unfold detect_objects, try_except, bind at 1.
  unfold lift_snd at 1, lift_world, model_call. simpl. rewrite Hmodel. simpl.
  pose proof (detect_boxes_state env (concat results) frame
                (after_model (ModelResults results) s)) as Hstate.
  rewrite <- for_each_concat in Hstate. unfold after_model in Hstate.
  destruct (for_each results _ _) as [[[]|e] [f' s']]; simpl in *;
    by injection Hstate as -> ->.
Qed.

(** X8: when the model returns, [detect_objects] returns the frame it was
    given, same pixels, with a rectangle and a label painted for every box
    up to the first one whose class [model.names] does not know, in the
    order of the results; exactly these boxes are handed to
    [log_detection], in the same order, with the class name and the
    confidence of the box.  The boxes after an unknown class are neither
    painted nor logged. *)
Theorem detect_objects_paints_and_logs (env : Env) (frame : Frame) (s : Sys)
    (results : list (list Box)) :
  env_model env (now_tick (world s)) frame = ModelResults results ->
  let named := named_prefix env (concat results) in
  detect_objects env frame s =
    (Ret {| raw := raw frame; overlay := overlay frame ++ drawings_of env named |},
     (log_all env (detections_of named) (after_model (ModelResults results) s)).2).
Proof. exact (detect_objects_results env frame s results). Qed.

Lemma detect_objects_paints_and_logs_witness :
  env_model env_unknown_class (now_tick (world running_on_1)) (sample_frame 7)
    = ModelResults [[mkBox (10, 20, 30, 40) half 0];
                    [mkBox (1, 2, 3, 4) half 7; mkBox (5, 6, 7, 8) half 0]] /\
  (detect_objects env_unknown_class (sample_frame 7) running_on_1).1 =
    Ret {| raw := 7;
           overlay := [Rectangle 10 20 30 40; Text "person 50.0%" 10 10] |} /\
  detection_count
    (cm (detect_objects env_unknown_class (sample_frame 7) running_on_1).2) = 1.
Proof.
  split; [reflexivity|].
  rewrite (detect_objects_paints_and_logs env_unknown_class (sample_frame 7)
             running_on_1 _ eq_refl).
  split; reflexivity.
Defined.

(** ** The frame of a tick *)




(** ** Streaming without the detector *)

(** X9: when the model failed to load, a tick never calls the model and
    never touches the log or the counter: it makes no external call at
    all, or one read, or one read and one encode; and the bytes it returns
    are what the encoder made of the frame exactly as it was read. *)
Theorem without_detector_frames_pass_through (env : Env) (s : Sys) :
  YOLO_AVAILABLE env = false ->
  let s' := (get_frame env s).2 in
  detection_count (cm s') = detection_count (cm s) /\
  log_file (world s') = log_file (world s) /\
  Forall (fun e => is_read_or_encode e = true) (new_events (world s) (world s')) /\
  (length (new_events (world s) (world s')) <= 2)%nat /\
  (forall jpeg, (get_frame env s).1 = Ret (Some jpeg) ->
     exists i f,
       new_events (world s) (world s') =
         [EvRead i (ReadFrame f); EvEncode (Encoded jpeg)] /\
       env_encode env (now_tick (world s) + 1) f = Encoded jpeg).
Proof.
  intros Hyolo s'. subst s'.
  assert (new_events (world s) (world s) = []) as Hnil.
  { unfold new_events. by rewrite drop_all. }
  destruct (is_running (cm s)) eqn:Hrun; last first.
  { rewrite get_frame_stopped by done. simpl. rewrite Hnil. simpl.
    repeat split; try done; lia. }
  destruct (camera (cm s)) as [c|] eqn:Hcam; last first.
  { rewrite get_frame_no_camera by done. simpl. rewrite Hnil. simpl.
    repeat split; try done; lia. }
  rewrite (get_frame_running env s c) by done. rewrite Hyolo.
  destruct (cap_read_cases env c (world s)) as [[f Hread] | [Hread | Hread]];
    rewrite Hread; clear Hread; simpl.
  - unfold imencode, now_tick, record_event. simpl. rewrite length_app. simpl.
    destruct (env_encode env (length (trace (world s)) + 1) f) as [j| |] eqn:Henc;
      simpl; rewrite (new_events_app _ _ [EvRead (cap_index c) (ReadFrame f);
                                          EvEncode (env_encode env
                                            (length (trace (world s)) + 1) f)])
        by (simpl; by rewrite <- app_assoc, Henc);
      rewrite Henc; (repeat split; try done; try (simpl; lia);
                     try (by repeat constructor)).
    intros jpeg [= <-]. by exists (cap_index c), f.
  - rewrite (new_events_app _ _ [EvRead (cap_index c) ReadNothing]) by done.
    repeat split; try done; try (simpl; lia). by repeat constructor.
  - rewrite (new_events_app _ _ [EvRead (cap_index c) ReadRaises]) by done.
    repeat split; try done; try (simpl; lia). by repeat constructor.
Qed.

Lemma without_detector_frames_pass_through_witness :
  YOLO_AVAILABLE env_no_yolo = false /\
  detection_count (cm (get_frame env_no_yolo running_on_1).2) = 0 /\
  log_file (world (get_frame env_no_yolo running_on_1).2) = None.
Proof.
  split; [reflexivity|].
  destruct (without_detector_frames_pass_through env_no_yolo running_on_1 eq_refl)
    as (Hc & Hf & _).
  exact (conj Hc Hf).
Defined.

(** ** The stream *)

Lemma multipart_inj (j1 j2 : Jpeg) : multipart j1 = multipart j2 -> j1 = j2.
Proof.
  unfold multipart. intros H. apply app_inv_head in H.
  by apply app_inv_tail in H.
Qed.

Lemma get_frame_returns (env : Env) (s : Sys) :
  exists r, (get_frame env s).1 = Ret r.
Proof.
  destruct (get_frame_outcome env s) as (r & Hr & _). by exists r.
Qed.

Lemma polled_S (env : Env) (k : nat) (s : Sys) :
  polled env (S k) s = polled env k (get_frame env s).2.
Proof. reflexivity. Qed.

(** X10: the loop of [video_feed] never ends by an exception.  Turn [k]
    calls [get_frame] once, on the state the [k] calls before it left:
    when that call returns bytes the turn yields one part made of exactly
    these bytes, the boundary line, the content type, the JPEG and a line
    end, from which the JPEG can be read back; when it returns "no frame"
    the turn sleeps.  However long the loop runs it leaves the running
    flag, the capture, the index and the open captures alone.  On a
    STOPPED session every turn sleeps and the process does not change at
    all: no device is touched. *)
Theorem stream_never_ends_by_itself (env : Env) (turns : nat) (s : Sys) :
  exists items,
    generate env turns s = (Ret items, polled env turns s) /\
    length items = turns /\
    (forall k, (k < turns)%nat ->
       exists r,
         (get_frame env (polled env k s)).1 = Ret r /\
         items !! k = Some match r with
                           | Some jpeg => Part (multipart jpeg)
                           | None => Sleep
                           end) /\
    quiet s (polled env turns s) /\
    (forall j1 j2, multipart j1 = multipart j2 -> j1 = j2) /\
    (is_running (cm s) = false ->
     items = replicate turns Sleep /\ polled env turns s = s).
Proof.
  revert s. induction turns as [|turns IH]; intros s.
  - exists []. split; [done|]. split; [done|]. split; [intros k Hk; lia|].
    split; [done|]. split; [apply multipart_inj | done].
  - destruct (get_frame_returns env s) as (r0 & Hr0).
    destruct (IH (get_frame env s).2)
      as (items & Heq & Hlen & Hitems & Hq & _ & Hstop).
    exists (match r0 with
            | Some jpeg => Part (multipart jpeg)
            | None => Sleep
            end :: items).
    rewrite polled_S.
    split; [|split; [|split; [|split; [|split]]]].
    + simpl. unfold bind at 1. unfold generate_turn, bind at 1.
      destruct (get_frame env s) as [r' s1]. simpl in *. subst r'.
      unfold bind. destruct r0 as [jpeg|]; unfold ret; by rewrite Heq.
    + simpl. by rewrite Hlen.
    + intros [|k] Hk.
      * exists r0. by split.
      * rewrite polled_S. apply Hitems. lia.
    + etransitivity; [apply quiet_get_frame | done].
    + apply multipart_inj.
    + intros Hrun. rewrite get_frame_stopped in * by done. simpl in *.
      destruct (Hstop Hrun) as [-> ->]. split; [|done].
      by injection Hr0 as <-.
Qed.

Lemma stream_never_ends_by_itself_witness :
  (1 < 2)%nat /\
  exists items,
    generate env_fine 2 running_on_1 = (Ret items, polled env_fine 2 running_on_1) /\
    (get_frame env_fine (polled env_fine 1 running_on_1)).1 = Ret (Some [4; 0]) /\
    items !! 1%nat = Some (Part (multipart [4; 0])).
Proof.
  split; [lia|].
  destruct (stream_never_ends_by_itself env_fine 2 running_on_1)
    as (items & Heq & _ & Hitems & _).
  destruct (Hitems 1%nat ltac:(lia)) as (r & Hr & Hitem).
  exists items. split; [exact Heq|]. split; [reflexivity|].
  assert (r = Some [4; 0]) as -> by (vm_compute in Hr; congruence).
  exact Hitem.
Defined.

(** Two turns on a RUNNING session: two parts, each with the bytes of its
    own frame. *)
Example stream_of_two_frames :
  (generate env_fine 2 running_on_1).1
  = Ret [Part (multipart [1; 0]); Part (multipart [4; 0])].
Proof. reflexivity. Qed.

(** ** The lock is given back *)

Lemma goto_lock_holder (t : nat) (p : PC) (s : Sys) (l : option nat)
    (cfg : Config) (th : Thread) :
  threads cfg !! t = Some th ->
  lock_holder_in_with_block cfg ->
  (forall t', l = Some t' ->
     (t' = t /\ in_with_block p = true) \/ (t' <> t /\ lock cfg = Some t')) ->
  lock_holder_in_with_block (goto t p s l cfg).
Proof.
  intros Hth Inv Hl t' Ht'. unfold goto in *. rewrite Hth in *. simpl in *.
  destruct (Hl t' Ht') as [[-> Hp] | [Hne Hold]].
  - eexists. rewrite list_lookup_insert_eq by (by eapply lookup_lt_Some). done.
  - destruct (Inv t' Hold) as (th' & Hth' & Hin). exists th'.
    by rewrite list_lookup_insert_ne.
Qed.

Ltac holder_step t Inv Hth Hpc :=
  eapply goto_lock_holder; [exact Hth | exact Inv |];
  let t' := fresh "t'" in let Hl := fresh "Hl" in
  intros t' Hl;
  first
    [ discriminate Hl
    | destruct (decide (t' = t)) as [->|?];
      [ left; split; [done|];
        first [ reflexivity
              | exfalso; destruct (Inv _ Hl) as (? & Hth2 & Hin2);
                rewrite Hth in Hth2; injection Hth2 as <-;
                rewrite Hpc in Hin2; discriminate Hin2 ]
      | right; first [done | split; [congruence | congruence]] ] ].

Lemma step_lock_holder (env : Env) (t : nat) (cfg cfg' : Config) :
  lock_holder_in_with_block cfg ->
  step env t cfg = Some cfg' ->
  lock_holder_in_with_block cfg'.
Proof.
  intros Inv Hstep. unfold step in Hstep.
  destruct (threads cfg !! t) as [th|] eqn:Hth; [|done].
  destruct (pc th) eqn:Hpc.
  - destruct (todo th) as [|call rest]; [done|]. injection Hstep as <-.
    intros t' Hl. simpl in *. destruct (Inv t' Hl) as (th' & Hth' & Hin).
    destruct (decide (t' = t)) as [->|Hne].
    + rewrite Hth in Hth'. injection Hth' as <-. by rewrite Hpc in Hin.
    + exists th'. by rewrite list_lookup_insert_ne.
  - destruct (lock cfg) eqn:Hl; [done|]. injection Hstep as <-.
    holder_step t Inv Hth Hpc.
  - destruct (is_running _); injection Hstep as <-; holder_step t Inv Hth Hpc.
  - destruct (lift_world _ _) as [[c|e] s']; injection Hstep as <-;
      holder_step t Inv Hth Hpc.
  - destruct (camera _) as [c|]; [destruct (isOpened _ _)|];
      injection Hstep as <-; holder_step t Inv Hth Hpc.
  - injection Hstep as <-; holder_step t Inv Hth Hpc.
  - injection Hstep as <-; holder_step t Inv Hth Hpc.
  - injection Hstep as <-. holder_step t Inv Hth Hpc.
  - destruct (lock cfg) eqn:Hl; [done|]. injection Hstep as <-.
    holder_step t Inv Hth Hpc.
  - destruct (negb _); injection Hstep as <-; holder_step t Inv Hth Hpc.
  - injection Hstep as <-; holder_step t Inv Hth Hpc.
  - destruct (camera _) as [c|]; injection Hstep as <-; holder_step t Inv Hth Hpc.
  - injection Hstep as <-; holder_step t Inv Hth Hpc.
  - injection Hstep as <-. holder_step t Inv Hth Hpc.
  - destruct (is_running _); [destruct (camera _)|]; injection Hstep as <-;
      holder_step t Inv Hth Hpc.
  - destruct (camera _) as [c'|]; injection Hstep as <-; holder_step t Inv Hth Hpc.
  - injection Hstep as <-; holder_step t Inv Hth Hpc.
Qed.

Lemma run_lock_holder (env : Env) (schedule : list nat) (cfg cfg' : Config) :
  lock_holder_in_with_block cfg ->
  run env schedule cfg = Some cfg' ->
  lock_holder_in_with_block cfg'.
Proof.
  revert cfg. induction schedule as [|t schedule IH]; intros cfg Inv Hrun; simpl in *.
  - by injection Hrun as <-.
  - destruct (step env t cfg) as [cfg1|] eqn:Hstep; [|done].
    eapply IH; [|done]. by eapply step_lock_holder.
Qed.

Lemma step_in_with_block (env : Env) (t : nat) (cfg : Config) (th : Thread) :
  threads cfg !! t = Some th ->
  in_with_block (pc th) = true ->
  is_Some (step env t cfg).
Proof.
  intros Hth Hin. unfold step. rewrite Hth.
  destruct (pc th); try discriminate Hin; repeat case_match; eauto.
Qed.

(** X11: the lock cannot be lost and the server cannot lock up.  However
    the threads are scheduled, the lock is held only by a thread that is
    inside a [with self.lock] block, so it is free again when [start] or
    [stop] has returned or raised; a thread that has not finished can
    take a step, or else it waits for the lock and the thread that holds
    the lock can take a step; and a thread inside [get_frame] never waits. *)
Theorem lock_is_given_back (env : Env) (s : Sys) (calls : list (list Call))
    (schedule : list nat) (cfg : Config) :
  run env schedule (spawn s calls) = Some cfg ->
  lock_holder_in_with_block cfg /\
  ((forall t th, threads cfg !! t = Some th -> pc th = Idle) -> lock cfg = None) /\
  (forall t th, threads cfg !! t = Some th -> has_work th ->
     is_Some (step env t cfg) \/
     exists t', t' <> t /\ lock cfg = Some t' /\ is_Some (step env t' cfg)) /\
  (forall t th, threads cfg !! t = Some th ->
     pc th = FrameGuard \/ touches_device (pc th) = true ->
     is_Some (step env t cfg)).
Proof.
  intros Hrun.
  assert (lock_holder_in_with_block cfg) as Inv.
  { eapply run_lock_holder; [|done]. intros t Hl. discriminate Hl. }
  split; [done|]. split; [|split].
  - intros Hidle. destruct (lock cfg) as [t|] eqn:Hl; [|done].
    destruct (Inv t Hl) as (th & Hth & Hin). by rewrite (Hidle t th Hth) in Hin.
  - intros t th Hth Hwork.
    destruct (step env t cfg) as [cfg'|] eqn:Hstep; [left; by eexists|]. right.
    assert (exists t', lock cfg = Some t' /\ in_with_block (pc th) = false)
      as (t' & Hl & Hout).
    { unfold step in Hstep. rewrite Hth in Hstep.
      destruct (pc th) eqn:Hpc; repeat case_match; try discriminate Hstep;
        try (by eexists).
      destruct Hwork as [Hw|Hw]; by destruct Hw. }
    destruct (Inv t' Hl) as (th' & Hth' & Hin'). exists t'.
    split; [|split; [done | by eapply step_in_with_block]].
    intros ->. rewrite Hth in Hth'. injection Hth' as <-. congruence.
  - intros t th Hth Hpc. unfold step. rewrite Hth.
    destruct (pc th); destruct Hpc as [Hpc|Hpc]; try discriminate Hpc;
      repeat case_match; eauto.
Qed.

Lemma lock_is_given_back_witness :
  run env_fine stop_during_read viewer_and_stopper = Some stopped_under_reader /\
  lock_holder_in_with_block stopped_under_reader /\
  lock stopped_under_reader = None.
Proof.
  assert (run env_fine stop_during_read viewer_and_stopper
          = Some stopped_under_reader) as Hrun by (vm_compute; reflexivity).
  split; [exact Hrun|].
  split; [exact (proj1 (lock_is_given_back env_fine _ _ _ _ Hrun)) | reflexivity].
Defined.

(** Two starters: while the first is inside its block the second is not. *)
Lemma with_blocks_exclude_each_other_witness :
  run env_fine [0; 0; 1]%nat (spawn (boot fresh_world) [[CallStart 0]; [CallStart 1]])
    = Some one_starter_inside /\
  threads one_starter_inside !! 0%nat = Some {| pc := StartCheck 0; todo := [] |} /\
  in_with_block (StartCheck 0) = true /\
  0%nat = 0%nat.
Proof.
  assert (run env_fine [0; 0; 1]%nat
            (spawn (boot fresh_world) [[CallStart 0]; [CallStart 1]])
          = Some one_starter_inside) as Hrun by (vm_compute; reflexivity).
  split; [exact Hrun|]. split; [reflexivity|]. split; [reflexivity|].
  exact (with_blocks_exclude_each_other env_fine _ _ _ _ 0%nat 0%nat _ _ Hrun
           eq_refl eq_refl eq_refl eq_refl).
Defined.

(** ** A whole tick, and the requests that do not log *)

(** X13: a tick on a RUNNING session whose read and model call succeed:
    the boxes painted onto the streamed frame are exactly the boxes handed
    to the logger, and the bytes returned are what the encoder makes of
    that painted frame, or "no frame" when the encoder fails, after the
    detections were logged. *)
Theorem tick_streams_what_it_logs (env : Env) (s : Sys) (c : VideoCapture)
    (f : Frame) (results : list (list Box)) :
  let t := now_tick (world s) in
  is_running (cm s) = true -> camera (cm s) = Some c ->
  isOpened c (world s) = true ->
  env_read env t (cap_index c) = ReadFrame f ->
  YOLO_AVAILABLE env = true ->
  env_model env (t + 1) f = ModelResults results ->
  let named := named_prefix env (concat results) in
  let read := {| cm := cm s;
                 world := record_event (EvRead (cap_index c) (ReadFrame f))
                            (world s) |} in
  let logged :=
    (log_all env (detections_of named) (after_model (ModelResults results) read)).2 in
  let painted :=
    {| raw := raw f; overlay := overlay f ++ drawings_of env named |} in
  get_frame env s =
    (Ret match env_encode env (now_tick (world logged)) painted with
         | Encoded jpeg => Some jpeg
         | _ => None
         end,
     {| cm := cm logged;
        world := record_event
                   (EvEncode (env_encode env (now_tick (world logged)) painted))
                   (world logged) |}).
Proof.
  intros t Hrun Hcam Hopen Hread Hyolo Hmodel named read logged painted.
  rewrite (get_frame_running env s c) by done.
  unfold cap_read. rewrite Hopen. fold t. rewrite Hread, Hyolo.
  fold read.
  rewrite (detect_objects_results env f read results); last first.
  { subst read t. unfold now_tick, record_event in *. simpl.
    by rewrite length_app. }
  fold named. fold logged. fold painted.
  unfold imencode. by destruct (env_encode env (now_tick (world logged)) painted).
Qed.

Lemma tick_streams_what_it_logs_witness :
  is_running (cm running_on_1) = true /\
  env_model env_unknown_class (now_tick (world running_on_1) + 1) (sample_frame 1)
    = ModelResults [[mkBox (10, 20, 30, 40) half 0];
                    [mkBox (1, 2, 3, 4) half 7; mkBox (5, 6, 7, 8) half 0]] /\
  (get_frame env_unknown_class running_on_1).1 = Ret (Some [1; 2]) /\
  detection_count (cm (get_frame env_unknown_class running_on_1).2) = 1.
Proof.
  split; [reflexivity|]. split; [reflexivity|].
  rewrite (tick_streams_what_it_logs env_unknown_class running_on_1 (mkCap 0 1)
             (sample_frame 1) _ eq_refl eq_refl eq_refl eq_refl eq_refl eq_refl).
  split; reflexivity.
Defined.

(** X14: only the stream writes the log: a request to [/cameras],
    [/control] or [/status] leaves the log file and the detection counter
    exactly as they were, whatever the body and whatever the driver
    does. *)
Theorem only_the_stream_logs (env : Env) (request : Request) (s : Sys) :
  request <> GetVideoFeedTurn ->
  log_file (world (serve env request s)) = log_file (world s) /\
  detection_count (cm (serve env request s)) = detection_count (cm s).
Proof.
  intros Hreq. destruct request as [|body| |]; simpl; try done.
  - destruct (scan_captures_spec env (world s)) as (_ & _ & _ & Hlog & _).
    unfold list_cameras, lift_world.
    by destruct (get_available_cameras env (world s)) as [r w'].
  - destruct (control_cases env body s)
      as [(e & -> & _) | [-> | [(i & ->) | ->]]]; simpl; try done.
    + destruct (is_running (cm s)) eqn:Hrun.
      * by rewrite start_running.
      * rewrite start_stopped by done. by destruct (env_open env _ i).
    + destruct (is_running (cm s)) eqn:Hrun.
      * destruct (stop_running s Hrun) as (s' & Heq & _ & _ & _ & Hc & Hl & _).
        by rewrite Heq.
      * by rewrite stop_stopped.
Qed.

Lemma only_the_stream_logs_witness :
  PostControl request_on <> GetVideoFeedTurn /\
  log_file (world (serve env_fine (PostControl request_on) (boot world_bad_log)))
    = Some Unparsable /\
  detection_count (cm (serve env_fine (PostControl request_on) (boot world_bad_log)))
    = 0.
Proof.
  split; [discriminate|].
  exact (only_the_stream_logs env_fine (PostControl request_on) (boot world_bad_log)
           ltac:(discriminate)).
Defined.
